(** * html-tokenizer: a shallow embedding of the tokenizer and the parser

    The development follows the TypeScript sources:
    - the chunkers ([chunks.getOpeningTag] ... [chunks.getAttributeName]),
      position-anchored uses of regular expressions;
    - [readAttribute], the attribute value reader;
    - [Tokenizer._tokenize], a four-state machine over a cursor, and
      [Tokenizer.tokenize], the wrapper that merges text tokens;
    - [Parser.parse], a stack machine over the tokens, with its static
      tables, its [Stack] class and the final drain.

    A JavaScript string is a sequence of UTF-16 code units; it is modelled
    as a list of code units ([N]).  A regular expression of the source is
    modelled by the function that computes its match at a given position.
    Generators are modelled by the list of the values they yield, together
    with the way they finish (normal return, or a thrown [TypeError]). *)

From Stdlib Require Import List Arith NArith Bool Lia String Ascii.
Import ListNotations.

(* ------------------------------------------------------------------ *)
(** ** Strings of code units *)

Definition char := N.
Definition str := list char.

(** The code units of an ASCII literal of the source. *)
Definition u (s : string) : str := map N_of_ascii (list_ascii_of_string s).

Fixpoint str_eqb (a b : str) : bool :=
  match a, b with
  | [], [] => true
  | x :: a', y :: b' => N.eqb x y && str_eqb a' b'
  | _, _ => false
  end.

(** [s.charAt(pos)]: a string of one code unit, or the empty string when
    [pos] is out of range. *)
Definition charAt (s : str) (pos : nat) : str := firstn 1 (skipn pos s).

(** [s.substring(a)]. *)
Definition substring_from (s : str) (a : nat) : str := skipn a s.

(** [s.substring(a, b)]: both indices are clamped to the length and swapped
    when [a > b]. *)
Definition substring (s : str) (a b : nat) : str :=
  let a' := Nat.min a (List.length s) in
  let b' := Nat.min b (List.length s) in
  let lo := Nat.min a' b' in
  let hi := Nat.max a' b' in
  firstn (hi - lo) (skipn lo s).

Fixpoint index_in (c : char) (l : str) : option nat :=
  match l with
  | [] => None
  | x :: l' => if N.eqb x c then Some 0
               else option_map S (index_in c l')
  end.

(** [s.indexOf(c, from)] for a one-unit string [c]; [None] stands for -1. *)
Definition indexOf (s : str) (c : char) (from : nat) : option nat :=
  option_map (fun i => from + i) (index_in c (skipn from s)).

Fixpoint takeWhile (p : char -> bool) (l : str) : str :=
  match l with
  | [] => []
  | x :: l' => if p x then x :: takeWhile p l' else []
  end.

Fixpoint dropWhile (p : char -> bool) (l : str) : str :=
  match l with
  | [] => []
  | x :: l' => if p x then dropWhile p l' else l
  end.

Fixpoint starts_with (pat l : str) : bool :=
  match pat, l with
  | [], _ => true
  | p :: pat', x :: l' => N.eqb p x && starts_with pat' l'
  | _ :: _, [] => false
  end.

(** The text before the first occurrence of [pat] in [l], if there is one:
    what a lazy [[\s\S]*?] followed by the literal [pat] captures. *)
Fixpoint before_first (pat l : str) : option str :=
  if starts_with pat l then Some []
  else match l with
       | [] => None
       | x :: l' => option_map (cons x) (before_first pat l')
       end.

(* ------------------------------------------------------------------ *)
(** ** Character classes of the regular expressions *)

Definition in_range (lo hi c : N) : bool := N.leb lo c && N.leb c hi.

(** [\s]: the ECMAScript WhiteSpace and LineTerminator code points. *)
Definition isSpace (c : char) : bool :=
  in_range 9 13 c || N.eqb c 32 || N.eqb c 160 || N.eqb c 5760
  || in_range 8192 8202 c || N.eqb c 8232 || N.eqb c 8233
  || N.eqb c 8239 || N.eqb c 8287 || N.eqb c 12288 || N.eqb c 65279.

(** [[a-z0-9-]] under the [i] flag (no [u] flag): canonicalisation maps only
    the ASCII letters onto [A-Z], so the class is [[A-Za-z0-9-]]. *)
Definition isTagNameChar (c : char) : bool :=
  in_range 97 122 c || in_range 65 90 c || in_range 48 57 c || N.eqb c 45.

(** [[a-z0-9\-_]] under the [i] flag. *)
Definition isAttrNameChar (c : char) : bool :=
  isTagNameChar c || N.eqb c 95.

Definition LT : char := 60%N.      (* < *)
Definition GT : char := 62%N.      (* > *)
Definition SLASH : char := 47%N.   (* / *)
Definition COLON : char := 58%N.   (* : *)
Definition EQUALS : char := 61%N.  (* = *)
Definition DQUOTE : char := 34%N.  (* double quote *)
Definition SQUOTE : char := 39%N.  (* single quote *)

(* ------------------------------------------------------------------ *)
(** ** Chunkers

    [chunker(regex)] sets [regex.lastIndex = pos], runs [regex.exec(str)]
    and keeps the match only when [match.index === pos].  [exec] tries the
    start positions [pos], [pos+1], ... in turn, so the chunker succeeds
    exactly when the expression matches AT [pos], and then returns that
    match.  Each chunker below is the anchored match of its expression on
    the suffix of [str] at [pos], with the groups the callers read. *)

Record Chunk := mkChunk {
  match1 : str;            (* match[1]: the whole match *)
  match2 : str;            (* match[2] *)
  match4 : option str      (* match[4]; None is undefined *)
}.

(** [length: match[1].length] *)
Definition chunk_length (c : Chunk) : nat := List.length (match1 c).

(** [([X]+:)?[X]+] at the start of [l], for a class [X] without [:].
    Greedy: the longest run of [X]; when it is followed by [:] and a
    non-empty run of [X], the prefix group takes the first run and the
    colon.  Returns the matched name and the rest of the input. *)
Definition rx_qname (X : char -> bool) (l : str) : option (str * str) :=
  match takeWhile X l with
  | [] => None
  | r1 =>
      match dropWhile X l with
      | c :: rest =>
          if N.eqb c COLON then
            match takeWhile X rest with
            | [] => Some (r1, c :: rest)
            | r2 => Some (r1 ++ c :: r2, dropWhile X rest)
            end
          else Some (r1, c :: rest)
      | [] => Some (r1, [])
      end
  end.

Module chunks.

(** [/(<(([a-z0-9-]+:)?[a-z0-9-]+))/ig] *)
Definition getOpeningTag (s : str) (pos : nat) : option Chunk :=
  match skipn pos s with
  | c :: l =>
      if N.eqb c LT then
        match rx_qname isTagNameChar l with
        | Some (name, _) => Some (mkChunk (c :: name) name None)
        | None => None
        end
      else None
  | [] => None
  end.

(** [/([^<]+)/g] *)
Definition getText (s : str) (pos : nat) : option Chunk :=
  match takeWhile (fun c => negb (N.eqb c LT)) (skipn pos s) with
  | [] => None
  | run => Some (mkChunk run run None)
  end.

(** [/(<\/(([a-z0-9-]+:)?[a-z0-9-]+)>)/ig] *)
Definition getClosingTag (s : str) (pos : nat) : option Chunk :=
  match skipn pos s with
  | c :: d :: l =>
      if N.eqb c LT && N.eqb d SLASH then
        match rx_qname isTagNameChar l with
        | Some (name, e :: _) =>
            if N.eqb e GT then Some (mkChunk (c :: d :: name ++ [e]) name None)
            else None
        | _ => None
        end
      else None
  | _ => None
  end.

(** [/(<!--)/g] *)
Definition getCommentOpen (s : str) (pos : nat) : option Chunk :=
  if starts_with (u "<!--") (skipn pos s)
  then Some (mkChunk (u "<!--") (u "<!--") None)
  else None.

(** [/(([\s\S]*?)-->)/g] *)
Definition getComment (s : str) (pos : nat) : option Chunk :=
  match before_first (u "-->") (skipn pos s) with
  | Some body => Some (mkChunk (body ++ u "-->") body None)
  | None => None
  end.

(** [/(([\s\S]*?)<\/script>)/g] (no [i] flag) *)
Definition getScript (s : str) (pos : nat) : option Chunk :=
  match before_first (u "</script>") (skipn pos s) with
  | Some body => Some (mkChunk (body ++ u "</script>") body None)
  | None => None
  end.

(** [/(\s*(\/?>))/g] *)
Definition getTagEnd (s : str) (pos : nat) : option Chunk :=
  let l := skipn pos s in
  let ws := takeWhile isSpace l in
  match dropWhile isSpace l with
  | c :: rest =>
      if N.eqb c GT then Some (mkChunk (ws ++ [c]) [c] None)
      else if N.eqb c SLASH then
        match rest with
        | d :: _ => if N.eqb d GT
                    then Some (mkChunk (ws ++ [c; d]) [c; d] None)
                    else None
        | [] => None
        end
      else None
  | [] => None
  end.

(** [/(\s+(([a-z0-9\-_]+:)?[a-z0-9\-_]+)(\s*=\s* )?)/ig]
    (a blank is written here between a star and a closing parenthesis) *)
Definition getAttributeName (s : str) (pos : nat) : option Chunk :=
  let l := skipn pos s in
  match takeWhile isSpace l with
  | [] => None
  | ws =>
      match rx_qname isAttrNameChar (dropWhile isSpace l) with
      | Some (name, rest) =>
          let ws2 := takeWhile isSpace rest in
          match dropWhile isSpace rest with
          | c :: rest' =>
              if N.eqb c EQUALS then
                let g4 := ws2 ++ c :: takeWhile isSpace rest' in
                Some (mkChunk (ws ++ name ++ g4) name (Some g4))
              else Some (mkChunk (ws ++ name) name None)
          | [] => Some (mkChunk (ws ++ name) name None)
          end
      | None => None
      end
  end.

End chunks.

(* ------------------------------------------------------------------ *)
(** ** Exceptions *)

(** The value of an expression: a value, or a thrown [TypeError]. *)
Inductive Result (A : Type) :=
| Ok (a : A)
| TypeError.
Arguments Ok {A} a.
Arguments TypeError {A}.

(** How a generator finished: it returned, or it threw. *)
Inductive Completion := Returned | Threw.

(* ------------------------------------------------------------------ *)
(** ** The attribute value reader *)

Record AttrRead := mkAttrRead { read_length : nat; read_value : str }.

(** [QUOTES.has(quote)], where [QUOTES] is the set of the two quote
    characters and [quote] is the result of [charAt]. *)
Definition QUOTES_has (q : str) : bool :=
  match q with
  | [c] => N.eqb c DQUOTE || N.eqb c SQUOTE
  | _ => false
  end.

(** [PATTERN = /(\s*([^>\s]* ))/g] (again with a blank after the star)
    matches at every position up to the end of the string, possibly the
    empty string, so [exec] from [lastIndex = pos] matches at [pos].  Beyond
    the end [exec] answers null, [match] becomes the empty array and
    [match[1].length] throws. *)
Definition readAttribute (s : str) (pos : nat) : Result AttrRead :=
  let quote := charAt s pos in
  let pos1 := pos + 1 in
  if QUOTES_has quote then
    match indexOf s (hd 0%N quote) pos1 with
    | None => Ok (mkAttrRead (List.length s - pos) (substring_from s pos1))
    | Some nextQuote =>
        Ok (mkAttrRead ((nextQuote - pos) + 1) (substring s pos1 nextQuote))
    end
  else if pos <=? List.length s then
    let l := skipn pos s in
    let ws := takeWhile isSpace l in
    let v := takeWhile (fun c => negb (N.eqb c GT || isSpace c))
                       (dropWhile isSpace l) in
    Ok (mkAttrRead (List.length (ws ++ v)) v)
  else TypeError.

(* ------------------------------------------------------------------ *)
(** ** Tokens and the tokenizer *)

Inductive Token :=
| TStart
| TOpeningTag (name : str)
| TAttribute (name value : str)
| TOpeningTagEnd (name token : str)
| TText (text : str)
| TComment (text : str)
| TClosingTag (name : str)
| TDone.

Inductive State := inTag | inComment | inText | inScript.

(** The local variables of [_tokenize]. *)
Record TState := mkTState {
  pos : nat;
  state : State;
  currentTag : str
}.

(** One iteration of the body of [while (pos < html.length)]: the tokens it
    yields, and either the variables for the next iteration, or [break], or
    an exception. *)
Inductive Iter :=
| Continue (st : TState) (yielded : list Token)
| Break (yielded : list Token)
| Raise (yielded : list Token).

Definition truthy (o : option str) : bool :=
  match o with
  | Some (_ :: _) => true
  | _ => false
  end.

Definition step (html : str) (st : TState) : Iter :=
  let p := pos st in
  match state st with
  | inText =>
      let isBracket := str_eqb (charAt html p) [LT] in
      match (if isBracket then chunks.getOpeningTag html p else None) with
      | Some next =>
          Continue (mkTState (p + chunk_length next) inTag (match2 next))
                   [TOpeningTag (match2 next)]
      | None =>
      match (if isBracket then chunks.getClosingTag html p else None) with
      | Some next =>
          Continue (mkTState (p + chunk_length next) inText (currentTag st))
                   [TClosingTag (match2 next)]
      | None =>
      match (if isBracket then chunks.getCommentOpen html p else None) with
      | Some next =>
          Continue (mkTState (p + chunk_length next) inComment (currentTag st))
                   []
      | None =>
      match chunks.getText html p with
      | Some next =>
          Continue (mkTState (p + chunk_length next) inText (currentTag st))
                   [TText (match1 next)]
      | None =>
          Continue (mkTState (p + 1) inText (currentTag st))
                   [TText (substring html p (p + 1))]
      end end end end
  | inComment =>
      match chunks.getComment html p with
      | Some next =>
          Continue (mkTState (p + chunk_length next) inText (currentTag st))
                   [TComment (match2 next)]
      | None => Break [TComment (substring_from html p)]
      end
  | inScript =>
      match chunks.getScript html p with
      | Some next =>
          Continue (mkTState (p + chunk_length next) inText (currentTag st))
                   [TText (match2 next); TClosingTag (u "script")]
      | None => Break [TText (substring_from html p)]
      end
  | inTag =>
      match chunks.getAttributeName html p with
      | Some next =>
          let p1 := p + chunk_length next in
          let name := match2 next in
          if truthy (match4 next) then
            match readAttribute html p1 with
            | Ok read =>
                Continue (mkTState (p1 + read_length read) inTag (currentTag st))
                         [TAttribute name (read_value read)]
            | TypeError => Raise []
            end
          else
            Continue (mkTState p1 inTag (currentTag st))
                     [TAttribute name []]
      | None =>
      match chunks.getTagEnd html p with
      | Some next =>
          Continue (mkTState (p + chunk_length next)
                             (if str_eqb (currentTag st) (u "script")
                              then inScript else inText)
                             (currentTag st))
                   [TOpeningTagEnd (currentTag st) (match2 next)]
      | None => Continue (mkTState p inText (currentTag st)) []
      end end
  end.

(** The [while] loop.  Every iteration uses one unit of [fuel]; [None]
    means that the fuel ran out before the loop ended. *)
Fixpoint loop (fuel : nat) (html : str) (st : TState)
  : option (list Token * Completion) :=
  if pos st <? List.length html then
    match fuel with
    | O => None
    | S fuel' =>
        match step html st with
        | Continue st' ys =>
            option_map (fun r => (ys ++ fst r, snd r)) (loop fuel' html st')
        | Break ys => Some (ys, Returned)
        | Raise ys => Some (ys, Threw)
        end
    end
  else Some ([], Returned).

Definition init : TState := mkTState 0 inText [].

(** [_tokenize] with an iteration budget: the start token, the tokens of
    the loop and, when the loop ended without exception, the done token. *)
Definition _tokenize_fuel (fuel : nat) (html : str)
  : option (list Token * Completion) :=
  option_map (fun r =>
                match snd r with
                | Returned => (TStart :: fst r ++ [TDone], Returned)
                | Threw => (TStart :: fst r, Threw)
                end)
             (loop fuel html init).

(** [_tokenize]: the loop is given as many iterations as the input has code
    units, which is always enough (see [_tokenize_fuel_enough]). *)
Definition _tokenize (html : str) : list Token * Completion :=
  match _tokenize_fuel (List.length html) html with
  | Some r => r
  | None => ([], Returned)
  end.

(** The loop of [tokenize] over the tokens of [_tokenize]; [currentText] is
    [None] for [undefined]. *)
Fixpoint coalesce (currentText : option str) (tkns : list Token) : list Token :=
  match tkns with
  | [] => []
  | TText text :: rest =>
      coalesce (match currentText with
                | None => Some text
                | Some t => Some (t ++ text)
                end) rest
  | tkn :: rest =>
      if truthy currentText
      then TText (match currentText with Some t => t | None => [] end)
           :: tkn :: coalesce None rest
      else tkn :: coalesce currentText rest
  end.

(** [tokenize]: an exception of [_tokenize] ends the loop of the wrapper
    too. *)
Definition tokenize (html : str) : list Token * Completion :=
  (coalesce None (fst (_tokenize html)), snd (_tokenize html)).


(* ------------------------------------------------------------------ *)
(** ** Plain JavaScript objects used as maps

    [attributes: {}] and [CLOSED_BY_SIBLINGS] are object literals: their
    prototype is [Object.prototype].  Reading a property that the object
    does not own continues in the prototype, and writing [__proto__] runs
    the setter inherited from it. *)

Definition Object_prototype_keys : list str :=
  map u [ "constructor"; "__defineGetter__"; "__defineSetter__";
          "hasOwnProperty"; "__lookupGetter__"; "__lookupSetter__";
          "isPrototypeOf"; "propertyIsEnumerable"; "toString"; "valueOf";
          "__proto__"; "toLocaleString" ]%string.

Definition str_mem (x : str) (l : list str) : bool := existsb (str_eqb x) l.

(** The own properties of an [Attributes] object, in creation order. *)
Definition Attributes := list (str * str).

Fixpoint own_get (o : Attributes) (k : str) : option str :=
  match o with
  | [] => None
  | (k', v) :: o' => if str_eqb k' k then Some v else own_get o' k
  end.

Fixpoint own_put (o : Attributes) (k v : str) : Attributes :=
  match o with
  | [] => [(k, v)]
  | (k', v') :: o' =>
      if str_eqb k' k then (k', v) :: o' else (k', v') :: own_put o' k v
  end.

(** [o[k] = v] for a string [v].  The key [__proto__] reaches the accessor
    of [Object.prototype], whose setter ignores a value that is neither an
    object nor null: no property is created.  Every other inherited property
    is a writable data property, so the assignment creates or updates an
    own property. *)
Definition obj_set (o : Attributes) (k v : str) : Attributes :=
  if str_eqb k (u "__proto__") then o else own_put o k v.

Definition digit (c : char) : option N :=
  if in_range 48 57 c then Some (c - 48)%N else None.

Fixpoint digits_value (acc : N) (l : str) : option N :=
  match l with
  | [] => Some acc
  | c :: l' =>
      match digit c with
      | Some d => digits_value (acc * 10 + d)%N l'
      | None => None
      end
  end.

(** A key is an array index when it is the canonical decimal form of an
    integer below 2^32 - 1. *)
Definition array_index (k : str) : option N :=
  match k with
  | [] => None
  | c :: rest =>
      if N.eqb c 48 && negb (match rest with [] => true | _ => false end)
      then None
      else match digits_value 0 k with
           | Some n => if N.leb n 4294967294 then Some n else None
           | None => None
           end
  end.

Fixpoint insert_index (e : N * str) (l : list (N * str)) : list (N * str) :=
  match l with
  | [] => [e]
  | e' :: l' => if N.leb (fst e) (fst e') then e :: l
                else e' :: insert_index e l'
  end.

Fixpoint index_keys (o : Attributes) : list (N * str) :=
  match o with
  | [] => []
  | (k, _) :: o' =>
      match array_index k with
      | Some n => insert_index (n, k) (index_keys o')
      | None => index_keys o'
      end
  end.

Fixpoint string_keys (o : Attributes) : list str :=
  match o with
  | [] => []
  | (k, _) :: o' =>
      match array_index k with
      | Some _ => string_keys o'
      | None => k :: string_keys o'
      end
  end.

(** The order in which [Object.keys], [Object.values], [for-in] and
    [JSON.stringify] enumerate the properties: array indices in ascending
    numeric order, then the other keys in creation order. *)
Definition own_keys (o : Attributes) : list str :=
  map snd (index_keys o) ++ string_keys o.

(* ------------------------------------------------------------------ *)
(** ** Static tables of the parser *)

Definition SELF_CLOSING_TAGS : list str :=
  map u [ "area"; "base"; "br"; "col"; "command"; "embed"; "hr"; "img";
          "input"; "keygen"; "link"; "meta"; "param"; "source"; "track";
          "wbr" ]%string.

Definition CLOSED_BY_PARENTS : list str :=
  map u [ "p"; "li"; "dd"; "rb"; "rt"; "rtc"; "rp"; "optgroup"; "option";
          "tbody"; "tfoot"; "tr"; "td"; "th" ]%string.

Definition CLOSED_BY_SIBLINGS : list (str * list str) :=
  map (fun e => (u (fst e), map u (snd e)))
  [ ("p", [ "address"; "article"; "aside"; "blockquote"; "div"; "dl";
            "fieldset"; "footer"; "form"; "h1"; "h2"; "h3"; "h4"; "h5";
            "h6"; "header"; "hgroup"; "hr"; "main"; "nav"; "ol"; "p";
            "pre"; "section"; "table"; "ul" ]);
    ("li", [ "li" ]);
    ("dt", [ "dt"; "dd" ]);
    ("dd", [ "dt"; "dd" ]);
    ("rb", [ "rb"; "rt"; "rtc"; "rp" ]);
    ("rt", [ "rb"; "rt"; "rtc"; "rp" ]);
    ("rtc", [ "rb"; "rtc"; "rp" ]);
    ("rp", [ "rb"; "rt"; "rtc"; "rp" ]);
    ("optgroup", [ "optgroup" ]);
    ("option", [ "option"; "optgroup" ]);
    ("thead", [ "tbody"; "tfoot" ]);
    ("tbody", [ "tbody"; "tfoot" ]);
    ("tfoot", [ "tbody" ]);
    ("tr", [ "tr" ]);
    ("td", [ "td"; "th" ]);
    ("th", [ "td"; "th" ]) ]%string.

(** What [CLOSED_BY_SIBLINGS[tag]] evaluates to. *)
Inductive Lookup :=
| OwnSet (s : list str)     (* a Set of the table *)
| Inherited                 (* a property of Object.prototype *)
| Undefined.

Fixpoint assoc (k : str) (l : list (str * list str)) : option (list str) :=
  match l with
  | [] => None
  | (k', v) :: l' => if str_eqb k' k then Some v else assoc k l'
  end.

Definition CLOSED_BY_SIBLINGS_get (tag : str) : Lookup :=
  match assoc tag CLOSED_BY_SIBLINGS with
  | Some s => OwnSet s
  | None => if str_mem tag Object_prototype_keys then Inherited else Undefined
  end.

Definition isSelfClosing (tag : str) : bool := str_mem tag SELF_CLOSING_TAGS.

(** [CLOSED_BY_SIBLINGS[tag]?.has(otherTag) ?? false].  The optional chain
    stops only on [undefined]; an inherited property (a function, or the
    prototype object itself) has no [has] method, and calling it throws. *)
Definition isClosedBy (tag otherTag : str) : Result bool :=
  match CLOSED_BY_SIBLINGS_get tag with
  | OwnSet s => Ok (str_mem otherTag s)
  | Undefined => Ok false
  | Inherited => TypeError
  end.

Definition isClosedByParent (tag : str) : bool := str_mem tag CLOSED_BY_PARENTS.

(* ------------------------------------------------------------------ *)
(** ** The stack

    [items] is the array of the class: [push] appends at the end, and the
    top of the stack is the last element. *)

Module Stack.
Section Ops.
Variable T : Type.

Definition items := list T.

Definition empty : items := [].

Definition push (t : T) (s : items) : items := s ++ [t].

(** [items.pop()]: the removed element and the remaining array. *)
Definition pop (s : items) : option T * items :=
  (last (map Some s) None, removelast s).

(** [items[items.length + -1 + -n]]; a negative index is [undefined]. *)
Definition peek (n : nat) (s : items) : option T :=
  if n <? List.length s then nth_error s (List.length s - 1 - n) else None.

Definition size (s : items) : nat := List.length s.

(** The values yielded by [drain], from [items[length-1]] down to
    [items[0]]; the array is emptied afterwards. *)
Definition drain (s : items) : list T := rev s.

End Ops.

Arguments push {T} t s.
Arguments pop {T} s.
Arguments peek {T} n s.
Arguments size {T} s.
Arguments drain {T} s.

End Stack.

(* ------------------------------------------------------------------ *)
(** ** Parse events and the parser *)

Inductive ParseToken :=
| POpen (name : str) (attributes : Attributes) (selfClosing : bool)
| PText (text : str)
| PComment (text : str)
| PClose (name : str) (selfClosing : bool).

Record PendingTag := mkPendingTag {
  name : str;
  attributes : Attributes
}.

(** The local variables of [parse]. *)
Record PState := mkPState {
  stack : Stack.items PendingTag;
  pendingTag : option PendingTag
}.

(** The body of the [for] loop on one token: the events it yields and the
    next variables, or the events yielded before an exception. *)
Inductive Handled :=
| Next (st : PState) (yielded : list ParseToken)
| Throws (yielded : list ParseToken).

Definition close_of (t : PendingTag) : ParseToken := PClose (name t) false.

(** In the source the frame that is pushed and the attributes that the open
    event carries are the pending tag itself, which stays in [pendingTag]:
    an attribute token arriving later would change them too.  The
    attributes of a frame are never read, and no attribute token arrives
    after the end of its tag (see [tokenize_attributes]), so events and
    frames are modelled as values. *)
Definition handle (st : PState) (tkn : Token) : Handled :=
  let stk := stack st in
  match tkn with
  | TOpeningTag nm =>
      Next (mkPState stk (Some (mkPendingTag nm []))) []
  | TClosingTag nm =>
      let current := Stack.peek 0 stk in
      let parent := Stack.peek 1 stk in
      match current with
      | Some current =>
          if str_eqb (name current) nm then
            Next (mkPState (snd (Stack.pop stk)) (pendingTag st))
                 [close_of current]
          else
            match parent with
            | Some parent =>
                if str_eqb (name parent) nm && isClosedByParent (name current)
                then Next (mkPState (snd (Stack.pop (snd (Stack.pop stk))))
                                    (pendingTag st))
                          [close_of current; close_of parent]
                else Next st []
            | None => Next st []
            end
      | None => Next st []
      end
  | TOpeningTagEnd nm token =>
      match pendingTag st with
      | Some pending =>
          let mightBeClosed := Stack.peek 0 stk in
          let isSelfClose := str_eqb token (u "/>") || isSelfClosing nm in
          let closed :=
            match mightBeClosed with
            | Some m => isClosedBy (name m) (name pending)
            | None => Ok false
            end in
          match closed with
          | TypeError => Throws []
          | Ok b =>
              let stk1 := if b then snd (Stack.pop stk) else stk in
              let ys1 :=
                match mightBeClosed with
                | Some m => if b then [close_of m] else []
                | None => []
                end in
              let open := POpen (name pending) (attributes pending) isSelfClose in
              if isSelfClose
              then Next (mkPState stk1 (pendingTag st))
                        (ys1 ++ [open; PClose (name pending) true])
              else Next (mkPState (Stack.push pending stk1) (pendingTag st))
                        (ys1 ++ [open])
          end
      | None => Next st [PText token]
      end
  | TText text => Next st [PText text]
  | TComment text => Next st [PComment text]
  | TAttribute nm value =>
      match pendingTag st with
      | Some pending =>
          Next (mkPState stk
                  (Some (mkPendingTag (name pending)
                           (obj_set (attributes pending) nm value)))) []
      | None => Next st []
      end
  | TStart | TDone => Next st []
  end.

(** The [for] loop over the tokens [tkns] of a tokenizer that finished
    with [stream_end], followed by the drain when no exception came. *)
Fixpoint parse_tokens (tkns : list Token) (stream_end : Completion)
  (st : PState) : list ParseToken * Completion :=
  match tkns with
  | [] =>
      match stream_end with
      | Returned => (map close_of (Stack.drain (stack st)), Returned)
      | Threw => ([], Threw)
      end
  | tkn :: rest =>
      match handle st tkn with
      | Next st' ys =>
          let r := parse_tokens rest stream_end st' in (ys ++ fst r, snd r)
      | Throws ys => (ys, Threw)
      end
  end.

Definition parse (html : str) : list ParseToken * Completion :=
  parse_tokens (fst (tokenize html)) (snd (tokenize html))
               (mkPState (Stack.empty PendingTag) None).


(* ------------------------------------------------------------------ *)
(** ** Properties stated about event and token sequences *)

(** Replays an event sequence against the stack [open] of the names of the
    elements that are open (innermost first).  A non-self-closing [open]
    pushes its name; a non-self-closing [close] must name the innermost open
    element and pops it; a self-closing [open] must be followed at once by
    its self-closing [close]; at the end nothing may remain open. *)
Fixpoint well_nested_from (open : list str) (evs : list ParseToken) : bool :=
  match evs with
  | [] => match open with [] => true | _ :: _ => false end
  | POpen n _ false :: rest => well_nested_from (n :: open) rest
  | POpen n _ true :: rest =>
      match rest with
      | PClose m true :: rest' => str_eqb n m && well_nested_from open rest'
      | _ => false
      end
  | PClose n false :: rest =>
      match open with
      | m :: open' => str_eqb m n && well_nested_from open' rest
      | [] => false
      end
  | PClose _ true :: _ => false
  | PText _ :: rest | PComment _ :: rest => well_nested_from open rest
  end.

Definition well_nested (evs : list ParseToken) : bool := well_nested_from [] evs.

Definition is_text (t : Token) : bool :=
  match t with TText _ => true | _ => false end.

Fixpoint no_adjacent_text (l : list Token) : bool :=
  match l with
  | [] => true
  | t :: r =>
      negb (is_text t && match r with t' :: _ => is_text t' | [] => false end)
      && no_adjacent_text r
  end.

Definition is_text_event (e : ParseToken) : bool :=
  match e with PText _ => true | _ => false end.

Fixpoint no_adjacent_text_events (l : list ParseToken) : bool :=
  match l with
  | [] => true
  | e :: r =>
      negb (is_text_event e
            && match r with e' :: _ => is_text_event e' | [] => false end)
      && no_adjacent_text_events r
  end.

(** The potential that every iteration of the tokenizer loop lowers: the
    code units left, plus one while a tag is being read. *)
Definition potential (html : str) (st : TState) : nat :=
  (List.length html - pos st)
  + match state st with inTag => 1 | _ => 0 end.

(** The names of the open elements, innermost first. *)
Definition open_names (s : Stack.items PendingTag) : list str :=
  rev (map name s).

(** A tag name is safe when [CLOSED_BY_SIBLINGS[name]] does not reach a
    property of [Object.prototype]. *)
Definition safe_name (nm : str) : Prop :=
  str_mem nm Object_prototype_keys = false.

Definition safe_state (st : PState) : Prop :=
  Forall (fun t => safe_name (name t)) (stack st)
  /\ forall p, pendingTag st = Some p -> safe_name (name p).

Definition is_attribute (t : Token) : bool :=
  match t with TAttribute _ _ => true | _ => false end.

Definition in_opening (t : Token) : bool :=
  match t with TOpeningTag _ | TAttribute _ _ => true | _ => false end.

(** Every attribute token comes right after an opening-tag token or another
    attribute token; [prev] tells whether the token before the list is one
    of these. *)
Fixpoint attributes_in_tag (prev : bool) (l : list Token) : bool :=
  match l with
  | [] => true
  | t :: r => (negb (is_attribute t) || prev) && attributes_in_tag (in_opening t) r
  end.

Definition after (prev : bool) (ys : list Token) : bool :=
  fold_left (fun _ t => in_opening t) ys prev.

(** The attribute tokens of a tag, for its attributes in source order. *)
Definition attribute_tokens (attrs : list (str * str)) : list Token :=
  map (fun kv => TAttribute (fst kv) (snd kv)) attrs.

(** The assignments [attributes[name] = value] for these attributes. *)
Definition assign_all (attrs : list (str * str)) (o : Attributes) : Attributes :=
  fold_left (fun o kv => obj_set o (fst kv) (snd kv)) attrs o.

(** The value of the last attribute named [k] in source order. *)
Fixpoint last_value (k : str) (attrs : list (str * str)) : option str :=
  match attrs with
  | [] => None
  | (k', v) :: attrs' =>
      match last_value k attrs' with
      | Some w => Some w
      | None => if str_eqb k' k then Some v else None
      end
  end.

(** The chunk [c] lies in [s] at [pos]: [match[1]] is the part of [s] that
    starts at [pos]. *)
Definition chunk_at (s : str) (pos : nat) (c : Chunk) : Prop :=
  exists rest, skipn pos s = match1 c ++ rest.

(** [c] is the result of one of the chunkers on [s] at [pos]. *)
Definition chunked (s : str) (pos : nat) (c : Chunk) : Prop :=
  chunks.getOpeningTag s pos = Some c
  \/ chunks.getText s pos = Some c
  \/ chunks.getClosingTag s pos = Some c
  \/ chunks.getCommentOpen s pos = Some c
  \/ chunks.getComment s pos = Some c
  \/ chunks.getScript s pos = Some c
  \/ chunks.getTagEnd s pos = Some c
  \/ chunks.getAttributeName s pos = Some c.

(** The token stream cut at its non-text tokens: each non-text token with
    the text that precedes it since the previous non-text token ([acc] is
    the text read so far). *)
Fixpoint segments (acc : str) (l : list Token) : list (str * Token) :=
  match l with
  | [] => []
  | TText x :: r => segments (acc ++ x) r
  | t :: r => (acc, t) :: segments [] r
  end.

Definition text_of (currentText : option str) : str :=
  match currentText with Some t => t | None => [] end.

Definition no_empty_text (l : list Token) : bool :=
  forallb (fun t => match t with TText [] => false | _ => true end) l.

Definition is_start_or_done (t : Token) : bool :=
  match t with TStart | TDone => true | _ => false end.

(** Tags are framed: an attribute token and an opening-tag-end token come
    right after an opening-tag token or an attribute token, and an
    opening-tag-end token carries the name of the last opening-tag token.
    [cur] is the name of the last opening-tag token before the list, and
    [prev] tells whether the token before the list is an opening-tag or
    attribute token. *)
Fixpoint tags_framed (cur : option str) (prev : bool) (l : list Token) : bool :=
  match l with
  | [] => true
  | t :: r =>
      match t with
      | TAttribute _ _ => prev
      | TOpeningTagEnd nm _ =>
          prev && match cur with Some c => str_eqb c nm | None => false end
      | _ => true
      end
      && tags_framed (match t with TOpeningTag nm => Some nm | _ => cur end)
                     (in_opening t) r
  end.

Definition last_opening (cur : option str) (ys : list Token) : option str :=
  fold_left (fun c t => match t with TOpeningTag nm => Some nm | _ => c end)
            ys cur.

(** The texts and comments of a token stream and of an event stream, in
    order ([true] marks a comment). *)
Definition content_of_tokens (l : list Token) : list (bool * str) :=
  flat_map (fun t => match t with
                     | TText x => [(false, x)]
                     | TComment x => [(true, x)]
                     | _ => []
                     end) l.

Definition content_of_events (l : list ParseToken) : list (bool * str) :=
  flat_map (fun e => match e with
                     | PText x => [(false, x)]
                     | PComment x => [(true, x)]
                     | _ => []
                     end) l.

(** Every self-closing open event is followed at once by the self-closing
    close event of the same name, and no other self-closing close event
    occurs.  [pending] is the name of a self-closing open event that still
    waits for its close. *)
Fixpoint self_closing_paired (pending : option str) (evs : list ParseToken)
  : bool :=
  match evs with
  | [] => match pending with None => true | Some _ => false end
  | e :: r =>
      match pending with
      | Some n =>
          match e with
          | PClose m true => str_eqb n m && self_closing_paired None r
          | _ => false
          end
      | None =>
          match e with
          | POpen n _ true => self_closing_paired (Some n) r
          | PClose _ true => false
          | _ => self_closing_paired None r
          end
      end
  end.

(** The keys of an attributes object in the order of their first
    assignment. *)
Definition add_key (ks : list str) (k : str) : list str :=
  if str_mem k ks then ks else ks ++ [k].

Definition first_occurrences (attrs : list (str * str)) : list str :=
  fold_left add_key (map fst attrs) [].

(** A name that a plain object treats like any other: not an array index
    and not [__proto__]. *)
Definition ordinary_name (k : str) : Prop :=
  array_index k = None /\ k <> u "__proto__".

(** A captured name: not empty, made of characters of the class [X] and
    colons. *)
Definition name_ok (X : char -> bool) (nm : str) : bool :=
  match nm with [] => false | _ :: _ => true end
  && forallb (fun c => X c || N.eqb c COLON) nm.

(** What the tokenizer promises about the fields of a token: tag names and
    attribute names are captured names, and the [token] of an
    opening-tag-end token is one of the two tag ends. *)
Definition token_ok (t : Token) : bool :=
  match t with
  | TOpeningTag nm | TClosingTag nm => name_ok isTagNameChar nm
  | TAttribute nm _ => name_ok isAttrNameChar nm
  | TOpeningTagEnd nm token =>
      name_ok isTagNameChar nm
      && (str_eqb token (u ">") || str_eqb token (u "/>"))
  | _ => true
  end.

(* ------------------------------------------------------------------ *)
(** ** Basic facts on strings *)

Lemma str_eqb_refl (a : str) : str_eqb a a = true.
Proof.
  induction a as [|x a IH]; simpl; [reflexivity|].
  now rewrite N.eqb_refl, IH.
Qed.

Lemma str_eqb_eq (a b : str) : str_eqb a b = true <-> a = b.
Proof.
  split; [|intros ->; apply str_eqb_refl].
  revert b; induction a as [|x a IH]; intros [|y b]; simpl; try discriminate; auto.
  intros H. apply andb_true_iff in H as [H1 H2].
  apply N.eqb_eq in H1. apply IH in H2. now subst.
Qed.

Lemma str_eqb_neq (a b : str) : str_eqb a b = false <-> a <> b.
Proof.
  split.
  - intros H E. apply str_eqb_eq in E. congruence.
  - intros H. destruct (str_eqb a b) eqn:E; [|reflexivity].
    apply str_eqb_eq in E. contradiction.
Qed.

Lemma takeWhile_dropWhile (p : char -> bool) (l : str) :
  takeWhile p l ++ dropWhile p l = l.
Proof.
  induction l as [|x l IH]; simpl; [reflexivity|].
  destruct (p x); simpl; [now rewrite IH | reflexivity].
Qed.

Lemma rx_qname_nonempty (X : char -> bool) (l name rest : str) :
  rx_qname X l = Some (name, rest) -> 1 <= List.length name.
Proof.
  unfold rx_qname.
  destruct (takeWhile X l) as [|a r1] eqn:E1; [discriminate|].
  destruct (dropWhile X l) as [|c rest0].
  - intros H; inversion H; subst; simpl; lia.
  - destruct (N.eqb c COLON).
    + destruct (takeWhile X rest0); intros H; inversion H; subst; simpl; lia.
    + intros H; inversion H; subst; simpl; lia.
Qed.

(** *** Every chunk consumes input *)

Lemma getOpeningTag_length s p c :
  chunks.getOpeningTag s p = Some c -> 2 <= chunk_length c.
Proof.
  unfold chunks.getOpeningTag, chunk_length.
  destruct (skipn p s) as [|x l]; [discriminate|].
  destruct (N.eqb x LT); [|discriminate].
  destruct (rx_qname isTagNameChar l) as [[nm rest]|] eqn:E; [|discriminate].
  intros H; inversion H; subst; simpl.
  apply rx_qname_nonempty in E. lia.
Qed.

Lemma getClosingTag_length s p c :
  chunks.getClosingTag s p = Some c -> 1 <= chunk_length c.
Proof.
  unfold chunks.getClosingTag, chunk_length.
  destruct (skipn p s) as [|x [|y l]]; try discriminate.
  destruct (N.eqb x LT && N.eqb y SLASH); [|discriminate].
  destruct (rx_qname isTagNameChar l) as [[nm [|e rest]]|]; try discriminate.
  destruct (N.eqb e GT); [|discriminate].
  intros H; inversion H; subst; simpl. lia.
Qed.

Lemma getCommentOpen_length s p c :
  chunks.getCommentOpen s p = Some c -> 1 <= chunk_length c.
Proof.
  unfold chunks.getCommentOpen, chunk_length.
  destruct (starts_with _ _); [|discriminate].
  intros H; inversion H; subst; simpl. lia.
Qed.

Lemma getText_length s p c :
  chunks.getText s p = Some c -> 1 <= chunk_length c.
Proof.
  unfold chunks.getText, chunk_length.
  destruct (takeWhile _ _); [discriminate|].
  intros H; inversion H; subst; simpl. lia.
Qed.

Lemma getComment_length s p c :
  chunks.getComment s p = Some c -> 1 <= chunk_length c.
Proof.
  unfold chunks.getComment, chunk_length.
  destruct (before_first _ _); [|discriminate].
  intros H; inversion H; subst; simpl. rewrite length_app. simpl. lia.
Qed.

Lemma getScript_length s p c :
  chunks.getScript s p = Some c -> 1 <= chunk_length c.
Proof.
  unfold chunks.getScript, chunk_length.
  destruct (before_first _ _); [|discriminate].
  intros H; inversion H; subst; simpl. rewrite length_app. simpl. lia.
Qed.

Lemma getTagEnd_length s p c :
  chunks.getTagEnd s p = Some c -> 1 <= chunk_length c.
Proof.
  unfold chunks.getTagEnd, chunk_length.
  destruct (dropWhile isSpace (skipn p s)) as [|x rest]; [discriminate|].
  destruct (N.eqb x GT).
  - intros H; inversion H; subst; simpl. rewrite length_app. simpl. lia.
  - destruct (N.eqb x SLASH); [|discriminate].
    destruct rest as [|d rest]; [discriminate|].
    destruct (N.eqb d GT); [|discriminate].
    intros H; inversion H; subst; simpl. rewrite length_app. simpl. lia.
Qed.

Lemma getAttributeName_length s p c :
  chunks.getAttributeName s p = Some c -> 1 <= chunk_length c.
Proof.
  unfold chunks.getAttributeName, chunk_length.
  destruct (takeWhile isSpace (skipn p s)) as [|w ws]; [discriminate|].
  destruct (rx_qname _ _) as [[nm rest]|]; [|discriminate].
  destruct (dropWhile isSpace rest) as [|x rest'].
  - intros H; inversion H; subst; simpl. lia.
  - destruct (N.eqb x EQUALS); intros H; inversion H; subst; simpl; lia.
Qed.

Create HintDb chunk.

#[local] Hint Resolve getOpeningTag_length getClosingTag_length
  getCommentOpen_length getText_length getComment_length getScript_length
  getTagEnd_length getAttributeName_length : chunk.

(* ------------------------------------------------------------------ *)
(** ** Progress of the tokenizer *)

(** Splits [step] along the branches of the source. *)
Ltac step_branches H :=
  unfold step in H;
  repeat match type of H with
  | context [match state ?s with _ => _ end] => destruct (state s) eqn:?
  | context [match (if ?b then _ else _) with _ => _ end] => destruct b eqn:?
  | context [match readAttribute ?h ?p with _ => _ end] =>
      destruct (readAttribute h p) eqn:?
  | context [match ?f ?h ?p with Some _ => _ | None => _ end] =>
      destruct (f h p) eqn:?
  | context [if truthy ?m then _ else _] => destruct (truthy m) eqn:?
  end.

(** An iteration that continues either is the abandon branch of [inTag]
    (same cursor, back to [inText], nothing yielded), or moves the cursor
    forward; it moves it by two code units at least when it enters
    [inTag]. *)
Lemma step_cases html st st' ys :
  step html st = Continue st' ys ->
  (state st = inTag /\ state st' = inText /\ pos st' = pos st /\ ys = [])
  \/ (pos st < pos st'
      /\ (state st' = inTag -> state st = inTag \/ pos st + 2 <= pos st')).
Proof.
  intros H. step_branches H; inversion H; subst; clear H; simpl;
    try (left; repeat split; congruence);
    right; split;
    try (intros; (left; congruence) || discriminate);
    repeat match goal with
    | E : _ = Some ?c |- _ =>
        first [ apply getOpeningTag_length in E
              | apply getClosingTag_length in E
              | apply getCommentOpen_length in E
              | apply getText_length in E
              | apply getComment_length in E
              | apply getScript_length in E
              | apply getTagEnd_length in E
              | apply getAttributeName_length in E ]
    end; try lia.
  all: intros _; right; lia.
Qed.

Lemma step_yields_at_most_two html st st' ys :
  step html st = Continue st' ys -> List.length ys <= 2.
Proof.
  intros H. step_branches H; inversion H; subst; simpl; lia.
Qed.

Lemma step_break_yields_one html st ys :
  step html st = Break ys -> List.length ys = 1.
Proof.
  intros H. step_branches H; inversion H; subst; reflexivity.
Qed.

(** *** The tokenizer does not throw

    [readAttribute] is only called behind an attribute name that was
    matched inside the input, so never beyond the end of the input. *)

Lemma rx_qname_split X l nm rest :
  rx_qname X l = Some (nm, rest) -> l = nm ++ rest.
Proof.
  unfold rx_qname. pose proof (takeWhile_dropWhile X l) as Hl.
  destruct (takeWhile X l) as [|a r1] eqn:E1; [discriminate|].
  destruct (dropWhile X l) as [|c rest0] eqn:E2.
  - intros H; injection H as <- <-. now symmetry.
  - destruct (N.eqb c COLON).
    + pose proof (takeWhile_dropWhile X rest0) as Hr.
      destruct (takeWhile X rest0) as [|b r2] eqn:E3;
        intros H; injection H as <- <-; [now symmetry|].
      rewrite <- Hl. simpl. f_equal. rewrite <- app_assoc. simpl.
      do 2 f_equal. symmetry. exact Hr.
    + intros H; injection H as <- <-. now symmetry.
Qed.

Lemma takeWhile_length p l : List.length (takeWhile p l) <= List.length l.
Proof.
  rewrite <- (takeWhile_dropWhile p l) at 2. rewrite length_app. lia.
Qed.

Lemma getAttributeName_bound s p c :
  chunks.getAttributeName s p = Some c -> p + chunk_length c <= List.length s.
Proof.
  unfold chunks.getAttributeName, chunk_length.
  pose proof (length_skipn p s) as Hsk.
  pose proof (takeWhile_dropWhile isSpace (skipn p s)) as Hl.
  destruct (takeWhile isSpace (skipn p s)) as [|w ws] eqn:E1; [discriminate|].
  destruct (rx_qname _ _) as [[nm rest]|] eqn:E2; [|discriminate].
  apply rx_qname_split in E2.
  pose proof (takeWhile_dropWhile isSpace rest) as Hr.
  assert (Hlen : List.length (w :: ws) + List.length nm + List.length rest
                 = List.length s - p).
  { rewrite <- Hsk, <- Hl, E2, !length_app. lia. }
  destruct (dropWhile isSpace rest) as [|x rest'] eqn:E3.
  - intros H; inversion H; subst. cbn [match1].
    cbn [List.length] in *. rewrite ?length_app in *. lia.
  - destruct (N.eqb x EQUALS); intros H; inversion H; subst; cbn [match1].
    + pose proof (takeWhile_length isSpace rest') as Hw.
      assert (List.length rest
              = List.length (takeWhile isSpace rest) + S (List.length rest'))
        by (rewrite <- Hr at 1; rewrite length_app; reflexivity).
      cbn [List.length] in *. rewrite ?length_app in *.
      cbn [List.length] in *. lia.
    + cbn [List.length] in *. rewrite ?length_app in *. lia.
Qed.

Lemma readAttribute_in_range s p :
  p <= List.length s -> exists read, readAttribute s p = Ok read.
Proof.
  intros Hp. unfold readAttribute.
  destruct (QUOTES_has (charAt s p)).
  - destruct (indexOf s _ _); eauto.
  - destruct (Nat.leb_spec p (List.length s)); [eauto | lia].
Qed.

Lemma step_never_raises html st ys : step html st <> Raise ys.
Proof.
  intros H. step_branches H; try discriminate.
  match goal with
  | E : chunks.getAttributeName _ _ = Some ?c |- _ =>
      apply getAttributeName_bound in E;
      destruct (readAttribute_in_range html (pos st + chunk_length c) E)
        as [read Hr]
  end.
  congruence.
Qed.

Lemma potential_decreases html st st' ys :
  pos st < List.length html ->
  step html st = Continue st' ys ->
  pos st' < List.length html ->
  potential html st' < potential html st.
Proof.
  intros Hp H Hp'. unfold potential.
  destruct (step_cases _ _ _ _ H) as [(E1 & E2 & E3 & _) | (Hlt & Htag)].
  - rewrite E1, E2, E3. lia.
  - destruct (state st') eqn:E'; try (destruct (state st); lia).
    destruct (Htag eq_refl) as [E | ?]; [rewrite E|destruct (state st)]; lia.
Qed.

Lemma loop_at_end fuel html st :
  List.length html <= pos st -> loop fuel html st = Some ([], Returned).
Proof.
  intros H. destruct fuel; simpl;
    destruct (Nat.ltb_spec (pos st) (List.length html)); (lia || reflexivity).
Qed.

(** With a budget of at least [potential] iterations the loop ends, and it
    ends without exception. *)
Lemma loop_terminates html fuel : forall st,
  potential html st <= fuel ->
  exists ys, loop fuel html st = Some (ys, Returned).
Proof.
  induction fuel as [|fuel IH]; intros st Hf.
  - exists []. apply loop_at_end. unfold potential in Hf. lia.
  - simpl. destruct (Nat.ltb_spec (pos st) (List.length html)) as [Hp|Hp];
      [|now exists []].
    destruct (step html st) as [st' ys|ys|ys] eqn:Hs;
      [|now exists ys|now apply step_never_raises in Hs].
    destruct (Nat.lt_ge_cases (pos st') (List.length html)) as [Hp'|Hp'].
    + pose proof (potential_decreases _ _ _ _ Hp Hs Hp').
      destruct (IH st') as [zs Hz]; [lia|]. rewrite Hz. now exists (ys ++ zs).
    + rewrite (loop_at_end fuel html st' Hp'). now exists (ys ++ []).
Qed.

(** More budget does not change the result. *)
Lemma loop_fuel_mono html fuel : forall st r fuel',
  loop fuel html st = Some r -> fuel <= fuel' -> loop fuel' html st = Some r.
Proof.
  induction fuel as [|fuel IH]; intros st r fuel' H Hle.
  - simpl in H. destruct (Nat.ltb_spec (pos st) (List.length html));
      [discriminate|]. inversion H; subst. apply loop_at_end. lia.
  - destruct fuel' as [|fuel']; [lia|]. simpl in *.
    destruct (pos st <? List.length html); [|assumption].
    destruct (step html st) as [st' zs|zs|zs]; [|assumption|assumption].
    destruct (loop fuel html st') as [ws|] eqn:E; [|discriminate].
    rewrite (IH st' ws fuel' E); [assumption | lia].
Qed.

Lemma potential_init html : potential html init = List.length html.
Proof. unfold potential; simpl. lia. Qed.

(** [_tokenize] is the result of the loop for every budget that covers the
    length of the input. *)
Lemma _tokenize_fuel_enough html fuel :
  List.length html <= fuel -> _tokenize_fuel fuel html = Some (_tokenize html).
Proof.
  intros Hle. unfold _tokenize, _tokenize_fuel.
  destruct (loop_terminates html (List.length html) init) as [ys Hy];
    [rewrite potential_init; lia|].
  rewrite Hy. simpl. now rewrite (loop_fuel_mono _ _ _ _ _ Hy Hle).
Qed.

(** [_tokenize] and [tokenize] never throw. *)
Lemma _tokenize_returns html : snd (_tokenize html) = Returned.
Proof.
  unfold _tokenize, _tokenize_fuel.
  destruct (loop_terminates html (List.length html) init) as [ys Hy];
    [rewrite potential_init; lia|].
  now rewrite Hy.
Qed.

Lemma tokenize_returns html : snd (tokenize html) = Returned.
Proof. apply _tokenize_returns. Qed.

(** The loop yields at most two tokens per unit of potential. *)
Lemma loop_yield_bound html fuel : forall st r,
  loop fuel html st = Some r ->
  List.length (fst r) <= 2 * potential html st.
Proof.
  induction fuel as [|fuel IH]; intros st r H; simpl in H.
  - destruct (pos st <? List.length html); [discriminate|].
    inversion H; subst; simpl; lia.
  - destruct (Nat.ltb_spec (pos st) (List.length html)) as [Hp|Hp];
      [|inversion H; subst; simpl; lia].
    destruct (step html st) as [st' zs|zs|zs] eqn:Hs.
    + destruct (loop fuel html st') as [ws|] eqn:E; [|discriminate].
      inversion H; subst. simpl. rewrite length_app.
      pose proof (step_yields_at_most_two _ _ _ _ Hs).
      destruct (Nat.lt_ge_cases (pos st') (List.length html)) as [Hp'|Hp'].
      * pose proof (potential_decreases _ _ _ _ Hp Hs Hp').
        pose proof (IH _ _ E). lia.
      * rewrite (loop_at_end fuel html st' Hp') in E. inversion E; subst.
        simpl. unfold potential. lia.
    + inversion H; subst. simpl. rewrite (step_break_yields_one _ _ _ Hs).
      unfold potential. lia.
    + now apply step_never_raises in Hs.
Qed.

Lemma truthy_le (ct : option str) : (if truthy ct then 1 else 0) <= 1.
Proof. destruct (truthy ct); lia. Qed.

(** The wrapper never yields more tokens than it reads, but for a pending
    text. *)
Lemma coalesce_length tkns : forall ct,
  List.length (coalesce ct tkns)
  <= List.length tkns + (if truthy ct then 1 else 0).
Proof.
  induction tkns as [|t r IH]; intros ct; [simpl; lia|].
  destruct t; simpl;
    try (destruct (truthy ct) eqn:E; simpl;
         [specialize (IH None); simpl in IH; lia
         |specialize (IH ct); rewrite E in IH; lia]).
  match goal with |- context [coalesce ?c r] => specialize (IH c) end.
  match goal with
  | H : _ <= _ + (if truthy ?c then 1 else 0) |- _ =>
      pose proof (truthy_le c)
  end.
  pose proof (truthy_le ct). destruct (truthy ct); lia.
Qed.

Lemma coalesce_no_adjacent_text tkns : forall ct,
  no_adjacent_text (coalesce ct tkns) = true.
Proof.
  induction tkns as [|t r IH]; intros ct; [reflexivity|].
  destruct t; simpl; try apply IH;
    destruct (truthy ct); simpl; rewrite IH; reflexivity.
Qed.

(* ------------------------------------------------------------------ *)
(** ** The stack, seen from its top *)

Arguments Stack.push : simpl never.
Arguments Stack.pop : simpl never.
Arguments Stack.peek : simpl never.

Lemma snoc_cases {A} (l : list A) : l = [] \/ exists l' a, l = l' ++ [a].
Proof.
  induction l as [|a l _] using rev_ind; [now left | right; eauto].
Qed.

Lemma peek_0_push (s : Stack.items PendingTag) t :
  Stack.peek 0 (Stack.push t s) = Some t.
Proof.
  unfold Stack.peek, Stack.push. rewrite length_app. simpl.
  destruct (Nat.ltb_spec 0 (List.length s + 1)); [|lia].
  rewrite nth_error_app2 by lia.
  replace (List.length s + 1 - 1 - 0 - List.length s) with 0 by lia.
  reflexivity.
Qed.

Lemma peek_1_push (s : Stack.items PendingTag) t :
  Stack.peek 1 (Stack.push t s) = Stack.peek 0 s.
Proof.
  unfold Stack.peek, Stack.push. rewrite length_app. simpl.
  destruct (Nat.ltb_spec 1 (List.length s + 1));
    destruct (Nat.ltb_spec 0 (List.length s)); try lia; [|reflexivity].
  rewrite nth_error_app1 by lia. f_equal. lia.
Qed.

Lemma pop_push (s : Stack.items PendingTag) t :
  Stack.pop (Stack.push t s) = (Some t, s).
Proof.
  unfold Stack.pop, Stack.push.
  rewrite map_app. simpl. now rewrite last_last, removelast_last.
Qed.

Lemma removelast_push (s : Stack.items PendingTag) t :
  removelast (Stack.push t s) = s.
Proof. apply removelast_last. Qed.

Lemma pop_length (s : Stack.items PendingTag) :
  List.length (snd (Stack.pop s)) <= List.length s.
Proof.
  destruct (snoc_cases s) as [-> | (s' & t & ->)]; [simpl; lia|].
  change (s' ++ [t]) with (Stack.push t s'). rewrite pop_push.
  unfold Stack.push. rewrite length_app. simpl. lia.
Qed.

Lemma open_names_push s t :
  open_names (Stack.push t s) = name t :: open_names s.
Proof.
  unfold open_names, Stack.push. now rewrite map_app, rev_app_distr.
Qed.

Lemma drain_well_nested (s : Stack.items PendingTag) :
  well_nested_from (open_names s) (map close_of (Stack.drain s)) = true.
Proof.
  unfold open_names, Stack.drain. rewrite <- map_rev.
  induction (rev s) as [|t l IH]; simpl; [reflexivity|].
  now rewrite str_eqb_refl, IH.
Qed.

Ltac stack_top s :=
  let s' := fresh "s" in let t := fresh "t" in
  destruct (snoc_cases s) as [-> | (s' & t & ->)];
  [ | change (s' ++ [t]) with (Stack.push t s') in * ].

(** The events of one token extend a well-nested continuation. *)
Lemma handle_well_nested st tkn st' ys :
  handle st tkn = Next st' ys ->
  forall evs,
    well_nested_from (open_names (stack st')) evs = true ->
    well_nested_from (open_names (stack st)) (ys ++ evs) = true.
Proof.
  destruct st as [stk pend]. unfold handle; simpl.
  destruct tkn as [|nm|nm v|nm tok|txt|txt|nm|].
  - intros H; inversion H; subst; auto.
  - intros H; inversion H; subst; auto.
  - destruct pend; intros H; inversion H; subst; auto.
  - destruct pend as [pending|]; [|intros H; inversion H; subst; auto].
    stack_top stk.
    + simpl.
      destruct (str_eqb tok (u "/>") || isSelfClosing nm);
        intros H; inversion H; subst; simpl; intros evs Hw.
      * now rewrite str_eqb_refl.
      * now rewrite open_names_push in Hw.
    + rewrite peek_0_push.
      destruct (isClosedBy (name t) (name pending)) as [b|]; [|discriminate].
      destruct b; rewrite ?removelast_push;
        destruct (str_eqb tok (u "/>") || isSelfClosing nm);
        intros H; inversion H; subst; simpl; intros evs Hw;
        rewrite ?open_names_push in *; simpl;
        rewrite ?str_eqb_refl; simpl; auto.
  - intros H; inversion H; subst; auto.
  - intros H; inversion H; subst; auto.
  - stack_top stk; [simpl; intros H; inversion H; subst; auto|].
    rewrite peek_0_push, peek_1_push, ?removelast_push, ?pop_push. simpl.
    destruct (str_eqb (name t) nm) eqn:E.
    + intros H; inversion H; subst; simpl. intros evs Hw.
      rewrite open_names_push. simpl. now rewrite str_eqb_refl.
    + stack_top s; [simpl; intros H; inversion H; subst; auto|].
      rewrite peek_0_push, ?removelast_push, ?pop_push. simpl.
      destruct (str_eqb (name t0) nm && isClosedByParent (name t));
        intros H; inversion H; subst; simpl; auto.
      intros evs Hw. rewrite !open_names_push. simpl.
      now rewrite !str_eqb_refl.
  - intros H; inversion H; subst; auto.
Qed.

(** When [parse] returns, its events are well nested. *)
Lemma parse_tokens_well_nested tkns : forall stream_end st evs,
  parse_tokens tkns stream_end st = (evs, Returned) ->
  well_nested_from (open_names (stack st)) evs = true.
Proof.
  induction tkns as [|tkn rest IH]; intros stream_end st evs H; simpl in H.
  - destruct stream_end; [|discriminate].
    inversion H; subst. apply drain_well_nested.
  - destruct (handle st tkn) as [st' ys|ys] eqn:Hh; [|discriminate].
    destruct (parse_tokens rest stream_end st') as [evs' c] eqn:Hr.
    simpl in H. inversion H; subst.
    eapply handle_well_nested; eauto.
Qed.

Lemma parse_returned_well_nested html evs :
  parse html = (evs, Returned) -> well_nested evs = true.
Proof. intros H. exact (parse_tokens_well_nested _ _ _ _ H). Qed.

(* ------------------------------------------------------------------ *)
(** ** Size of the event stream *)

Lemma handle_size st tkn st' ys :
  handle st tkn = Next st' ys ->
  List.length ys + List.length (stack st')
  <= 3 + List.length (stack st).
Proof.
  destruct st as [stk pend]. unfold handle; simpl.
  pose proof (pop_length stk) as Hpop.
  pose proof (pop_length (snd (Stack.pop stk))) as Hpop2.
  unfold Stack.pop in Hpop, Hpop2; simpl in Hpop, Hpop2.
  destruct tkn as [|nm|nm v|nm tok|txt|txt|nm|];
    try (intros H; inversion H; subst; simpl; lia).
  - destruct pend; intros H; inversion H; subst; simpl; lia.
  - destruct pend as [pending|]; [|intros H; inversion H; subst; simpl; lia].
    destruct (Stack.peek 0 stk) as [m|].
    + destruct (isClosedBy (name m) (name pending)) as [b|]; [|discriminate].
      destruct b; destruct (str_eqb tok (u "/>") || isSelfClosing nm);
        intros H; inversion H; subst; simpl;
        unfold Stack.push; rewrite ?length_app; simpl; lia.
    + destruct (str_eqb tok (u "/>") || isSelfClosing nm);
        intros H; inversion H; subst; simpl;
        unfold Stack.push; rewrite ?length_app; simpl; lia.
  - destruct (Stack.peek 0 stk) as [cur|];
      [|intros H; inversion H; subst; simpl; lia].
    destruct (str_eqb (name cur) nm);
      [intros H; inversion H; subst; simpl; lia|].
    destruct (Stack.peek 1 stk) as [par|];
      [|intros H; inversion H; subst; simpl; lia].
    destruct (str_eqb (name par) nm && isClosedByParent (name cur));
      intros H; inversion H; subst; simpl; lia.
Qed.

Lemma handle_throws_nothing st tkn ys : handle st tkn = Throws ys -> ys = [].
Proof.
  destruct st as [stk pend]. unfold handle; simpl.
  destruct tkn as [|nm|nm v|nm tok|txt|txt|nm|]; try discriminate.
  - destruct pend; discriminate.
  - destruct pend as [pending|]; [|discriminate].
    destruct (Stack.peek 0 stk) as [m|].
    + destruct (isClosedBy (name m) (name pending)) as [b|].
      * destruct (str_eqb tok (u "/>") || isSelfClosing nm); discriminate.
      * intros H; now inversion H.
    + destruct (str_eqb tok (u "/>") || isSelfClosing nm); discriminate.
  - destruct (Stack.peek 0 stk) as [cur|]; [|discriminate].
    destruct (str_eqb (name cur) nm); [discriminate|].
    destruct (Stack.peek 1 stk) as [par|]; [|discriminate].
    destruct (str_eqb (name par) nm && isClosedByParent (name cur));
      discriminate.
Qed.

Lemma parse_tokens_size tkns : forall stream_end st,
  List.length (fst (parse_tokens tkns stream_end st))
  <= 3 * List.length tkns + List.length (stack st).
Proof.
  induction tkns as [|tkn rest IH]; intros stream_end st; simpl.
  - destruct stream_end; simpl; [|lia].
    unfold Stack.drain. rewrite length_map, length_rev. lia.
  - destruct (handle st tkn) as [st' ys|ys] eqn:Hh; simpl.
    + rewrite length_app. pose proof (handle_size _ _ _ _ Hh).
      specialize (IH stream_end st'). lia.
    + rewrite (handle_throws_nothing _ _ _ Hh). simpl. lia.
Qed.

Lemma _tokenize_length html :
  List.length (fst (_tokenize html)) <= 2 * List.length html + 2.
Proof.
  unfold _tokenize, _tokenize_fuel.
  destruct (loop (List.length html) html init) as [[ys c]|] eqn:E;
    simpl; [|lia].
  apply loop_yield_bound in E. rewrite potential_init in E. simpl in E.
  destruct c; simpl; rewrite ?length_app; simpl; lia.
Qed.

Lemma tokenize_length html :
  List.length (fst (tokenize html)) <= 2 * List.length html + 2.
Proof.
  unfold tokenize. simpl.
  pose proof (coalesce_length (fst (_tokenize html)) None) as H.
  simpl in H. pose proof (_tokenize_length html). lia.
Qed.

Lemma parse_length html :
  List.length (fst (parse html)) <= 6 * List.length html + 6.
Proof.
  unfold parse.
  pose proof (parse_tokens_size (fst (tokenize html)) (snd (tokenize html))
                (mkPState (Stack.empty PendingTag) None)) as H.
  cbn [stack Stack.empty List.length] in H.
  pose proof (tokenize_length html). lia.
Qed.

(* ------------------------------------------------------------------ *)
(** ** When the parser throws *)

Lemma isClosedBy_safe tag other :
  safe_name tag -> exists b, isClosedBy tag other = Ok b.
Proof.
  unfold safe_name, isClosedBy, CLOSED_BY_SIBLINGS_get. intros H.
  destruct (assoc tag CLOSED_BY_SIBLINGS); [eauto|]. rewrite H. eauto.
Qed.


Lemma Forall_push (P : PendingTag -> Prop) s t :
  Forall P (Stack.push t s) <-> P t /\ Forall P s.
Proof.
  unfold Stack.push. rewrite Forall_app. split.
  - intros [H1 H2]. inversion H2; subst. auto.
  - intros [H1 H2]. auto.
Qed.

Lemma handle_safe st tkn :
  safe_state st ->
  (forall nm, tkn = TOpeningTag nm -> safe_name nm) ->
  exists st' ys, handle st tkn = Next st' ys /\ safe_state st'.
Proof.
  destruct st as [stk pend]. intros [Hs Hp] Ht. simpl in Hs, Hp.
  unfold handle, safe_state; simpl stack; simpl pendingTag.
  destruct tkn as [|nm|nm v|nm tok|txt|txt|nm|];
    try (do 2 eexists; split; [reflexivity|]; simpl; now auto).
  - do 2 eexists; split; [reflexivity|]; simpl. split; [assumption|].
    intros p E; inversion E; subst; simpl. now apply Ht.
  - destruct pend as [pending|];
      do 2 eexists; (split; [reflexivity|]); simpl; auto.
    split; [assumption|]. intros p E; inversion E; subst; simpl. now apply Hp.
  - destruct pend as [pending|];
      [|do 2 eexists; split; [reflexivity|]; simpl; now auto].
    pose proof (Hp _ eq_refl) as Hpn.
    stack_top stk.
    + unfold Stack.peek at 1. simpl.
      destruct (str_eqb tok (u "/>") || isSelfClosing nm);
        do 2 eexists; (split; [reflexivity|]); simpl; auto.
      split; [|assumption]. apply Forall_push. auto.
    + rewrite peek_0_push. apply Forall_push in Hs as [Hst Hs].
      destruct (isClosedBy_safe (name t) (name pending) Hst) as [b ->].
      rewrite pop_push. simpl snd.
      destruct b; destruct (str_eqb tok (u "/>") || isSelfClosing nm);
        do 2 eexists; (split; [reflexivity|]); simpl;
        (split; [|assumption]); rewrite ?Forall_push; auto.
  - stack_top stk.
    + unfold Stack.peek at 1. simpl.
      do 2 eexists; split; [reflexivity|]; simpl; now auto.
    + rewrite peek_0_push, peek_1_push, pop_push. simpl snd.
      apply Forall_push in Hs as [Hst Hs].
      destruct (str_eqb (name t) nm);
        [do 2 eexists; split; [reflexivity|]; simpl; now auto|].
      stack_top s.
      * unfold Stack.peek at 1. simpl.
        do 2 eexists; split; [reflexivity|]; simpl.
        split; [|assumption]. apply Forall_push. auto.
      * rewrite peek_0_push, ?pop_push, ?removelast_push. simpl snd.
        pose proof Hs as Hs'. apply Forall_push in Hs' as [Hst0 Hs0].
        destruct (str_eqb (name t0) nm && isClosedByParent (name t));
          do 2 eexists; (split; [reflexivity|]); simpl;
          (split; [|assumption]); rewrite ?Forall_push; auto.
Qed.

Lemma parse_tokens_returns tkns : forall st,
  safe_state st ->
  (forall nm, In (TOpeningTag nm) tkns -> safe_name nm) ->
  snd (parse_tokens tkns Returned st) = Returned.
Proof.
  induction tkns as [|tkn rest IH]; intros st Hs Ht; [reflexivity|].
  simpl. destruct (handle_safe st tkn Hs) as (st' & ys & -> & Hs').
  - intros nm ->. apply Ht. now left.
  - simpl. apply IH; [assumption|]. intros nm Hin. apply Ht. now right.
Qed.

(** [parse] returns normally on every input none of whose tag names is a
    property name of [Object.prototype]. *)
Lemma parse_returns html :
  (forall nm, In (TOpeningTag nm) (fst (tokenize html)) -> safe_name nm) ->
  snd (parse html) = Returned.
Proof.
  intros H. unfold parse. rewrite tokenize_returns.
  apply parse_tokens_returns; [|assumption].
  split; [constructor | discriminate].
Qed.

(* ------------------------------------------------------------------ *)
(** ** Attribute tokens stay inside their tag

    [parse] yields the object [pendingTag.attributes] itself in the open
    event and keeps [pendingTag] afterwards.  The tokenizer only yields an
    attribute token right after an opening-tag token or another attribute
    token, so no attribute is ever assigned to an object that an event
    already carries: the attributes of an event are those it had when it
    was yielded. *)

Lemma attributes_in_tag_app ys : forall prev zs,
  attributes_in_tag prev (ys ++ zs)
  = attributes_in_tag prev ys && attributes_in_tag (after prev ys) zs.
Proof.
  induction ys as [|y ys IH]; intros prev zs; simpl; [reflexivity|].
  rewrite IH. unfold after. simpl. now rewrite andb_assoc.
Qed.

Lemma attributes_in_tag_weaken l : forall prev,
  attributes_in_tag false l = true -> attributes_in_tag prev l = true.
Proof.
  destruct l as [|t r]; intros prev H; simpl in *; [reflexivity|].
  apply andb_true_iff in H as [H1 H2]. rewrite H2.
  rewrite orb_false_r in H1. now rewrite H1.
Qed.

Lemma step_attributes html st st' ys prev :
  step html st = Continue st' ys ->
  (state st = inTag -> prev = true) ->
  attributes_in_tag prev ys = true
  /\ (state st' = inTag -> after prev ys = true).
Proof.
  intros H Hp. step_branches H; inversion H; subst; clear H; simpl;
    split; try reflexivity; try discriminate; intros;
    try rewrite (Hp eq_refl); try reflexivity.
  destruct (str_eqb (currentTag st) (u "script")); discriminate.
Qed.

Lemma step_break_attributes html st ys prev :
  step html st = Break ys -> attributes_in_tag prev ys = true.
Proof.
  intros H. step_branches H; inversion H; subst; reflexivity.
Qed.

Lemma loop_attributes html fuel : forall st r prev,
  loop fuel html st = Some r ->
  (state st = inTag -> prev = true) ->
  attributes_in_tag prev (fst r) = true.
Proof.
  induction fuel as [|fuel IH]; intros st r prev H Hp; simpl in H.
  - destruct (pos st <? List.length html); [discriminate|].
    now inversion H.
  - destruct (pos st <? List.length html); [|now inversion H].
    destruct (step html st) as [st' zs|zs|zs] eqn:Hs.
    + destruct (loop fuel html st') as [ws|] eqn:E; [|discriminate].
      inversion H; subst. simpl.
      destruct (step_attributes _ _ _ _ _ Hs Hp) as [H1 H2].
      rewrite attributes_in_tag_app, H1. simpl. eapply IH; eauto.
    + inversion H; subst. eapply step_break_attributes; eauto.
    + now apply step_never_raises in Hs.
Qed.

Lemma _tokenize_attributes html :
  attributes_in_tag false (fst (_tokenize html)) = true.
Proof.
  unfold _tokenize, _tokenize_fuel.
  destruct (loop (List.length html) html init) as [[ys c]|] eqn:E;
    [|reflexivity].
  pose proof (loop_attributes _ _ _ _ false E) as H. simpl in H.
  destruct c; simpl; rewrite ?attributes_in_tag_app, ?H by discriminate;
    reflexivity.
Qed.

Lemma coalesce_attributes l : forall ct prev,
  attributes_in_tag prev l = true ->
  (prev = true -> truthy ct = false) ->
  attributes_in_tag prev (coalesce ct l) = true.
Proof.
  induction l as [|t r IH]; intros ct prev H Hp; [reflexivity|].
  simpl in H. apply andb_true_iff in H as [H1 H2].
  destruct t; simpl in *;
    try (destruct (truthy ct) eqn:Ect; simpl;
         [apply IH; [assumption | reflexivity]
         |rewrite ?H1; simpl; apply IH; [assumption | now intros _]]).
  - (* attribute *)
    subst prev. rewrite (Hp eq_refl). simpl.
    apply IH; [assumption | now intros _; apply Hp].
  - (* text *)
    apply attributes_in_tag_weaken. apply IH; [assumption | discriminate].
Qed.

Lemma tokenize_attributes html :
  attributes_in_tag false (fst (tokenize html)) = true.
Proof.
  apply coalesce_attributes; [apply _tokenize_attributes | discriminate].
Qed.

(* ------------------------------------------------------------------ *)
(** ** Test vectors

    Inputs and expected events of the test suite of the parser
    ([parser.test.ts]), run on the embedding. *)

Example test_empty :
  parse []
  = ([], Returned).
Proof. vm_compute; reflexivity. Qed.

Example test_br :
  parse (u "<br>")
  = ([POpen (u "br") [] true;
      PClose (u "br") true], Returned).
Proof. vm_compute; reflexivity. Qed.

Example test_br_slash :
  parse (u "<br/>")
  = ([POpen (u "br") [] true;
      PClose (u "br") true], Returned).
Proof. vm_compute; reflexivity. Qed.

Example test_p_hello :
  parse (u "<p>hello")
  = ([POpen (u "p") [] false;
      PText (u "hello");
      PClose (u "p") false], Returned).
Proof. vm_compute; reflexivity. Qed.

Example test_p_slash_hello :
  parse (u "<p/>hello")
  = ([POpen (u "p") [] true;
      PClose (u "p") true;
      PText (u "hello")], Returned).
Proof. vm_compute; reflexivity. Qed.

Example test_nested :
  parse (u "<b><i>what<u></u></i></b>")
  = ([POpen (u "b") [] false;
      POpen (u "i") [] false;
      PText (u "what");
      POpen (u "u") [] false;
      PClose (u "u") false;
      PClose (u "i") false;
      PClose (u "b") false], Returned).
Proof. vm_compute; reflexivity. Qed.

Example test_br_closing :
  parse (u "<br>foo</br>")
  = ([POpen (u "br") [] true;
      PClose (u "br") true;
      PText (u "foo")], Returned).
Proof. vm_compute; reflexivity. Qed.

Example test_double_quoted :
  parse (u "<br id=" ++ [34%N] ++ u " foo-bar" ++ [34%N] ++ u " class=" ++ [34%N] ++ u "xyz" ++ [34%N] ++ u ">")
  = ([POpen (u "br") [(u "id", u " foo-bar"); (u "class", u "xyz")] true;
      PClose (u "br") true], Returned).
Proof. vm_compute; reflexivity. Qed.

Example test_spaced_equals :
  parse (u "<br id" ++ [10%N] ++ u "   " ++ [9%N] ++ u "=" ++ [13%N] ++ [10%N] ++ u "foo-bar class" ++ [10%N] ++ u "=" ++ [9%N] ++ u "xyz>")
  = ([POpen (u "br") [(u "id", u "foo-bar"); (u "class", u "xyz")] true;
      PClose (u "br") true], Returned).
Proof. vm_compute; reflexivity. Qed.

Example test_trailing_gt :
  parse (u "<br>>>")
  = ([POpen (u "br") [] true;
      PClose (u "br") true;
      PText (u ">>")], Returned).
Proof. vm_compute; reflexivity. Qed.

Example test_leading_lt :
  parse (u "<<<br>")
  = ([PText (u "<<");
      POpen (u "br") [] true;
      PClose (u "br") true], Returned).
Proof. vm_compute; reflexivity. Qed.

Example test_pre_unfinished :
  parse (u "<pre")
  = ([], Returned).
Proof. vm_compute; reflexivity. Qed.

Example test_pre_blank :
  parse (u "<pre ")
  = ([PText (u " ")], Returned).
Proof. vm_compute; reflexivity. Qed.

Example test_blank_br :
  parse (u "< br>")
  = ([PText (u "< br>")], Returned).
Proof. vm_compute; reflexivity. Qed.

Example test_lone_closing :
  parse (u "</br>")
  = ([], Returned).
Proof. vm_compute; reflexivity. Qed.

Example test_empty_comment :
  parse (u "<!---->")
  = ([PComment []], Returned).
Proof. vm_compute; reflexivity. Qed.

Example test_open_comment :
  parse (u "<!--x-- >")
  = ([PComment (u "x-- >")], Returned).
Proof. vm_compute; reflexivity. Qed.

Example test_prefixed :
  parse (u "<foo:bar yes=" ++ [34%N] ++ u "yes" ++ [34%N] ++ u "></foo:bar>")
  = ([POpen (u "foo:bar") [(u "yes", u "yes")] false;
      PClose (u "foo:bar") false], Returned).
Proof. vm_compute; reflexivity. Qed.

Example test_script_tags :
  parse (u "<script><foo<foo<foo</script>")
  = ([POpen (u "script") [] false;
      PText (u "<foo<foo<foo");
      PClose (u "script") false], Returned).
Proof. vm_compute; reflexivity. Qed.

Example test_script_empty :
  parse (u "<script type=" ++ [34%N] ++ u "text/javascript" ++ [34%N] ++ u "></script>")
  = ([POpen (u "script") [(u "type", u "text/javascript")] false;
      PClose (u "script") false], Returned).
Proof. vm_compute; reflexivity. Qed.

Example test_script_defer :
  parse (u "<script defer>")
  = ([POpen (u "script") [(u "defer", [])] false;
      PClose (u "script") false], Returned).
Proof. vm_compute; reflexivity. Qed.

Example test_restarted_tag :
  parse (u "<foo<foo<foo/>>>")
  = ([POpen (u "foo") [] true;
      PClose (u "foo") true;
      PText (u ">>")], Returned).
Proof. vm_compute; reflexivity. Qed.

Example test_single_quoted :
  parse (u "<br att='yes, " ++ [34%N] ++ u "no" ++ [34%N] ++ u ", yes'>")
  = ([POpen (u "br") [(u "att", (u "yes, " ++ [34%N] ++ u "no" ++ [34%N] ++ u ", yes"))] true;
      PClose (u "br") true], Returned).
Proof. vm_compute; reflexivity. Qed.

Example test_deep_unclosed :
  parse (u "<x><rb><foo></x>a")
  = ([POpen (u "x") [] false;
      POpen (u "rb") [] false;
      POpen (u "foo") [] false;
      PText (u "a");
      PClose (u "foo") false;
      PClose (u "rb") false;
      PClose (u "x") false], Returned).
Proof. vm_compute; reflexivity. Qed.

Example test_div_a :
  parse (u "<div><a></div><a>")
  = ([POpen (u "div") [] false;
      POpen (u "a") [] false;
      POpen (u "a") [] false;
      PClose (u "a") false;
      PClose (u "a") false;
      PClose (u "div") false], Returned).
Proof. vm_compute; reflexivity. Qed.

Example test_p_hr :
  parse (u "<p><hr>")
  = ([POpen (u "p") [] false;
      PClose (u "p") false;
      POpen (u "hr") [] true;
      PClose (u "hr") true], Returned).
Proof. vm_compute; reflexivity. Qed.

Example test_dl :
  parse (u "<dl><dd><dt></dt></dl>a")
  = ([POpen (u "dl") [] false;
      POpen (u "dd") [] false;
      PClose (u "dd") false;
      POpen (u "dt") [] false;
      PClose (u "dt") false;
      PClose (u "dl") false;
      PText (u "a")], Returned).
Proof. vm_compute; reflexivity. Qed.

Example test_lone_gt :
  parse (u "/>")
  = ([PText (u "/>")], Returned).
Proof. vm_compute; reflexivity. Qed.

(* ------------------------------------------------------------------ *)
(** ** The claims *)

(** C1 (well-nested output).  The claim: for every input the events of
    [Parser.parse] are well nested, and at end of input every element that
    is still open receives its close from the drain.  The parser does this
    whenever it returns ([parse_returned_well_nested], and [parse_returns]
    for when it does).  On the input [<constructor><a>] it does not return:
    when [a] opens, [isClosedBy] reads [CLOSED_BY_SIBLINGS[tag]] for the
    tag name [constructor] on top of the stack, finds the function
    inherited from [Object.prototype], and the call of its missing [has]
    throws.  The generator has yielded the open event of [constructor] and
    nothing else: that element is never closed. *)
Theorem parse_throws_on_inherited_tag_name :
  parse (u "<constructor><a>") = ([POpen (u "constructor") [] false], Threw)
  /\ well_nested (fst (parse (u "<constructor><a>"))) = false.
Proof. split; vm_compute; reflexivity. Qed.

(** C2 (text coalescing), as amended.  [Tokenizer.tokenize] never yields two
    consecutive text tokens, for every input; the parser passes each text
    token through as one text event and merges nothing itself. *)
Theorem tokenize_no_adjacent_text :
  (forall html, no_adjacent_text (fst (tokenize html)) = true)
  /\ (forall st text, handle st (TText text) = Next st [PText text]).
Proof.
  split; [|reflexivity].
  intros html. apply coalesce_no_adjacent_text.
Qed.

(** C2 as stated fails: the unmatched closing tag of [a</x>b] separates two
    text tokens in the tokenizer, the parser drops it, and the two text
    events come out next to each other. *)
Lemma parse_adjacent_text_events :
  parse (u "a</x>b") = ([PText (u "a"); PText (u "b")], Returned)
  /\ no_adjacent_text_events (fst (parse (u "a</x>b"))) = false.
Proof. split; vm_compute; reflexivity. Qed.

(** C3 (sibling close).  On an opening-tag-end token, when the name of the
    pending tag is in the set that [CLOSED_BY_SIBLINGS] gives for the frame
    [T] on top of the stack, the parser pops [T] and yields its close, then
    yields the open of the new tag (followed by its own close when it is
    self-closing, and pushed otherwise).  And [<p><div>] yields open p,
    close p, open div, close div. *)
Theorem sibling_close_on_opening_tag_end :
  (forall stk T pending nm token s,
     assoc (name T) CLOSED_BY_SIBLINGS = Some s ->
     str_mem (name pending) s = true ->
     handle (mkPState (Stack.push T stk) (Some pending))
            (TOpeningTagEnd nm token)
     = Next (mkPState
               (if str_eqb token (u "/>") || isSelfClosing nm
                then stk else Stack.push pending stk)
               (Some pending))
            (PClose (name T) false
             :: POpen (name pending) (attributes pending)
                      (str_eqb token (u "/>") || isSelfClosing nm)
             :: (if str_eqb token (u "/>") || isSelfClosing nm
                 then [PClose (name pending) true] else [])))
  /\ parse (u "<p><div>")
     = ([POpen (u "p") [] false; PClose (u "p") false;
         POpen (u "div") [] false; PClose (u "div") false], Returned).
Proof.
  split; [|vm_compute; reflexivity].
  intros stk T pending nm token s Ha Hm.
  unfold handle; simpl stack; simpl pendingTag.
  rewrite peek_0_push, pop_push.
  unfold isClosedBy, CLOSED_BY_SIBLINGS_get. rewrite Ha, Hm. simpl snd.
  unfold close_of.
  destruct (str_eqb token (u "/>") || isSelfClosing nm); reflexivity.
Qed.

Lemma sibling_close_on_opening_tag_end_witness :
  handle (mkPState (Stack.push (mkPendingTag (u "p") []) [])
                   (Some (mkPendingTag (u "div") [])))
         (TOpeningTagEnd (u "div") (u ">"))
  = Next (mkPState [mkPendingTag (u "div") []]
                   (Some (mkPendingTag (u "div") [])))
         [PClose (u "p") false; POpen (u "div") [] false].
Proof.
  apply (proj1 sibling_close_on_opening_tag_end
           [] (mkPendingTag (u "p") []) (mkPendingTag (u "div") [])
           (u "div") (u ">")
           (map u [ "address"; "article"; "aside"; "blockquote"; "div"; "dl";
                    "fieldset"; "footer"; "form"; "h1"; "h2"; "h3"; "h4";
                    "h5"; "h6"; "header"; "hgroup"; "hr"; "main"; "nav";
                    "ol"; "p"; "pre"; "section"; "table"; "ul" ]%string));
    reflexivity.
Defined.

(** C4 (closing tag).  On a closing-tag token the parser pops and closes the
    top frame when it has the name of the token; otherwise, when the frame
    below has that name and the top frame is in [CLOSED_BY_PARENTS], it pops
    and closes both, the top one first; otherwise it yields nothing and
    leaves the stack as it is.  And [<ul><li><li></ul>a] yields open ul,
    open li, close li, open li, close li, close ul, text a. *)
Theorem closing_tag_rules :
  (forall stk top pend nm,
     name top = nm ->
     handle (mkPState (Stack.push top stk) pend) (TClosingTag nm)
     = Next (mkPState stk pend) [PClose nm false])
  /\ (forall stk parent top pend nm,
        name top <> nm -> name parent = nm ->
        isClosedByParent (name top) = true ->
        handle (mkPState (Stack.push top (Stack.push parent stk)) pend)
               (TClosingTag nm)
        = Next (mkPState stk pend)
               [PClose (name top) false; PClose nm false])
  /\ (forall st nm,
        (forall top, Stack.peek 0 (stack st) = Some top ->
           name top <> nm
           /\ forall parent, Stack.peek 1 (stack st) = Some parent ->
                name parent <> nm \/ isClosedByParent (name top) = false) ->
        handle st (TClosingTag nm) = Next st [])
  /\ parse (u "<ul><li><li></ul>a")
     = ([POpen (u "ul") [] false; POpen (u "li") [] false;
         PClose (u "li") false; POpen (u "li") [] false;
         PClose (u "li") false; PClose (u "ul") false; PText (u "a")],
        Returned).
Proof.
  split; [|split; [|split; [|vm_compute; reflexivity]]].
  - intros stk top pend nm <-. unfold handle; simpl stack; simpl pendingTag.
    rewrite peek_0_push, pop_push, str_eqb_refl. reflexivity.
  - intros stk parent top pend nm Hne Hp Hc.
    unfold handle; simpl stack; simpl pendingTag.
    rewrite peek_0_push, peek_1_push, peek_0_push, !pop_push. simpl snd.
    apply str_eqb_neq in Hne. rewrite Hne, Hc.
    rewrite (proj2 (str_eqb_eq _ _) Hp). simpl. unfold close_of.
    now rewrite ?removelast_push, ?pop_push, Hp.
  - intros [stk pend] nm H. unfold handle; simpl stack in *; simpl pendingTag.
    destruct (Stack.peek 0 stk) as [cur|]; [|reflexivity].
    destruct (H cur eq_refl) as [Hne Hpar].
    apply str_eqb_neq in Hne. rewrite Hne.
    destruct (Stack.peek 1 stk) as [par|]; [|reflexivity].
    destruct (Hpar par eq_refl) as [Hn | Hc].
    + apply str_eqb_neq in Hn. now rewrite Hn.
    + now rewrite Hc, andb_false_r.
Qed.

Lemma closing_tag_rules_witness :
  handle (mkPState [mkPendingTag (u "b") []] None) (TClosingTag (u "b"))
  = Next (mkPState [] None) [PClose (u "b") false]
  /\ handle (mkPState [mkPendingTag (u "ul") []; mkPendingTag (u "li") []] None)
            (TClosingTag (u "ul"))
     = Next (mkPState [] None) [PClose (u "li") false; PClose (u "ul") false]
  /\ handle (mkPState [mkPendingTag (u "b") []] None) (TClosingTag (u "pre"))
     = Next (mkPState [mkPendingTag (u "b") []] None) [].
Proof.
  destruct closing_tag_rules as (H1 & H2 & H3 & _).
  split; [|split].
  - apply (H1 [] (mkPendingTag (u "b") []) None (u "b")). reflexivity.
  - apply (H2 [] (mkPendingTag (u "ul") []) (mkPendingTag (u "li") [])
              None (u "ul")); [discriminate | reflexivity | reflexivity].
  - apply (H3 (mkPState [mkPendingTag (u "b") []] None) (u "pre")).
    intros top E. vm_compute in E. inversion E; subst.
    split; [discriminate|]. intros parent E'. vm_compute in E'. discriminate.
Defined.

(** *** The first occurrence of a literal *)

Lemma before_first_eq pat l :
  before_first pat l
  = if starts_with pat l then Some []
    else match l with
         | [] => None
         | x :: l' => option_map (cons x) (before_first pat l')
         end.
Proof. destruct l; reflexivity. Qed.

Lemma starts_with_app pat rest : starts_with pat (pat ++ rest) = true.
Proof. induction pat as [|p pat IH]; simpl; [|rewrite N.eqb_refl]; auto. Qed.

Lemma before_first_found pat rest : forall body,
  (forall i, i < List.length body ->
     starts_with pat (skipn i (body ++ pat ++ rest)) = false) ->
  before_first pat (body ++ pat ++ rest) = Some body.
Proof.
  induction body as [|x body IH]; intros H; rewrite before_first_eq.
  - simpl. now rewrite starts_with_app.
  - pose proof (H 0) as H0. cbn [app skipn] in *. rewrite H0 by (simpl; lia).
    rewrite IH; [reflexivity|].
    intros i Hi. apply (H (S i)). simpl. lia.
Qed.

Lemma before_first_none pat : forall l,
  (forall i, starts_with pat (skipn i l) = false) ->
  before_first pat l = None.
Proof.
  induction l as [|x l IH]; intros H; rewrite before_first_eq;
    pose proof (H 0) as H0; simpl in H0; rewrite H0; [reflexivity|].
  rewrite IH; [reflexivity|]. intros i. apply (H (S i)).
Qed.

(** C5 (raw text of a script element).  When the opening tag of an element
    whose captured name is [script] ends, the tokenizer enters [inScript].
    There, with the cursor before the end of the input: when [</script>]
    occurs (compared code unit by code unit) the text before its first
    occurrence is yielded as one text token, followed by a closing-tag
    token named [script], the cursor moves behind the occurrence and the
    state is [inText] again; when it does not occur, the rest of the input
    is yielded as one text token and the loop ends.  And the input
    [<script>alert(Q</script>Q)</script>], with Q a double quote, yields
    open script, text [alert(Q], close script, text [Q)]: the second
    [</script>] is dropped. *)
Theorem script_raw_text :
  (forall html st next,
     state st = inTag -> currentTag st = u "script" ->
     chunks.getAttributeName html (pos st) = None ->
     chunks.getTagEnd html (pos st) = Some next ->
     step html st
     = Continue (mkTState (pos st + chunk_length next) inScript (u "script"))
                [TOpeningTagEnd (u "script") (match2 next)])
  /\ (forall html st body rest,
        state st = inScript ->
        skipn (pos st) html = body ++ u "</script>" ++ rest ->
        (forall i, i < List.length body ->
           starts_with (u "</script>") (skipn i (skipn (pos st) html)) = false) ->
        step html st
        = Continue (mkTState (pos st + (List.length body + 9)) inText
                             (currentTag st))
                   [TText body; TClosingTag (u "script")])
  /\ (forall html st,
        state st = inScript ->
        (forall i,
           starts_with (u "</script>") (skipn i (skipn (pos st) html)) = false) ->
        step html st = Break [TText (substring_from html (pos st))]
        /\ forall fuel, pos st < List.length html ->
             loop (S fuel) html st
             = Some ([TText (substring_from html (pos st))], Returned))
  /\ parse (u "<script>alert(" ++ [DQUOTE] ++ u "</script>" ++ [DQUOTE]
            ++ u ")</script>")
     = ([POpen (u "script") [] false; PText (u "alert(" ++ [DQUOTE]);
         PClose (u "script") false; PText ([DQUOTE] ++ u ")")], Returned).
Proof.
  split; [|split; [|split; [|vm_compute; reflexivity]]].
  - intros html st next Hst Htag Ha He. unfold step.
    rewrite Hst, Ha, He, Htag. reflexivity.
  - intros html st body rest Hst Hsk Hfirst. unfold step, chunks.getScript.
    rewrite Hst. rewrite Hsk in *.
    rewrite (before_first_found _ _ _ Hfirst).
    unfold chunk_length. simpl match1. rewrite length_app. reflexivity.
  - intros html st Hst Hnone.
    assert (E : step html st = Break [TText (substring_from html (pos st))]).
    { unfold step, chunks.getScript. rewrite Hst.
      now rewrite (before_first_none _ _ Hnone). }
    split; [exact E|]. intros fuel Hp. simpl.
    destruct (Nat.ltb_spec (pos st) (List.length html)); [|lia].
    now rewrite E.
Qed.

Lemma script_raw_text_witness :
  step (u "<script>a</script>b") (mkTState 7 inTag (u "script"))
  = Continue (mkTState 8 inScript (u "script"))
             [TOpeningTagEnd (u "script") (u ">")]
  /\ step (u "<script>a</script>b") (mkTState 8 inScript (u "script"))
     = Continue (mkTState 18 inText (u "script"))
                [TText (u "a"); TClosingTag (u "script")]
  /\ loop 1 (u "<script>ab") (mkTState 8 inScript (u "script"))
     = Some ([TText (u "ab")], Returned).
Proof.
  destruct script_raw_text as (H1 & H2 & H3 & _).
  split; [|split].
  - apply (H1 (u "<script>a</script>b") (mkTState 7 inTag (u "script"))
              (mkChunk (u ">") (u ">") None)); reflexivity.
  - apply (H2 (u "<script>a</script>b") (mkTState 8 inScript (u "script"))
              (u "a") (u "b")); [reflexivity | reflexivity |].
    intros i Hi. destruct i; [reflexivity | simpl in Hi; lia].
  - apply (H3 (u "<script>ab") (mkTState 8 inScript (u "script")));
      [reflexivity | | simpl; lia].
    intros i. do 3 (destruct i; [reflexivity|]). reflexivity.
Defined.

(** C6 (totality and the empty input), as amended.  The tokenizer is total:
    for every input its loop ends within any budget of at least
    [length html] iterations, always with the same result, that of
    [_tokenize]; neither [_tokenize] nor the wrapper [tokenize] throws (the
    one expression of the tokenizer that can throw, in [readAttribute], is
    never reached beyond the end of the input).  On the empty input the
    parser yields no event and returns, and the tokenizer yields exactly
    the two tokens start and done. *)
Theorem tokenizer_total_and_empty_input :
  (forall html fuel,
     List.length html <= fuel ->
     _tokenize_fuel fuel html = Some (_tokenize html))
  /\ (forall html, snd (_tokenize html) = Returned)
  /\ (forall html, snd (tokenize html) = Returned)
  /\ parse (u "") = ([], Returned)
  /\ tokenize (u "") = ([TStart; TDone], Returned).
Proof.
  split; [|split; [|split; [|split; reflexivity]]].
  - intros html fuel H. now apply _tokenize_fuel_enough.
  - apply _tokenize_returns.
  - apply tokenize_returns.
Qed.

Lemma tokenizer_total_and_empty_input_witness :
  _tokenize_fuel 5 (u "<br>") = Some (_tokenize (u "<br>")).
Proof.
  apply (proj1 tokenizer_total_and_empty_input (u "<br>") 5). simpl. lia.
Defined.

(** C6 as stated fails for the tokenizer: on the empty input its stream is
    not empty. *)
Lemma tokenize_empty_input_not_empty : fst (tokenize (u "")) <> [].
Proof. discriminate. Qed.

(** *** Attribute objects: what does hold *)

Lemma own_get_own_put_same o k v : own_get (own_put o k v) k = Some v.
Proof.
  induction o as [|[k' v'] o IH]; simpl.
  - now rewrite str_eqb_refl.
  - destruct (str_eqb k' k) eqn:E; simpl; rewrite E; auto.
Qed.

Lemma own_get_own_put_other o k v k' :
  k' <> k -> own_get (own_put o k v) k' = own_get o k'.
Proof.
  intros Hne. induction o as [|[k0 v0] o IH]; simpl.
  - apply not_eq_sym, str_eqb_neq in Hne. now rewrite Hne.
  - destruct (str_eqb k0 k) eqn:E; simpl; [|now rewrite IH].
    apply str_eqb_eq in E; subst.
    apply not_eq_sym, str_eqb_neq in Hne. now rewrite Hne.
Qed.

(** An attribute whose name is not [__proto__] is stored, and the last
    value given for a name wins. *)
Lemma obj_set_get o k v :
  k <> u "__proto__" -> own_get (obj_set o k v) k = Some v.
Proof.
  intros H. unfold obj_set. apply str_eqb_neq in H. rewrite H.
  apply own_get_own_put_same.
Qed.

Lemma obj_set_get_other o k v k' :
  k' <> k -> own_get (obj_set o k v) k' = own_get o k'.
Proof.
  intros H. unfold obj_set. destruct (str_eqb k (u "__proto__")); [reflexivity|].
  now apply own_get_own_put_other.
Qed.

(** The attribute tokens of a tag are assigned, in source order, to the
    attributes object of the pending tag; nothing is yielded. *)
Lemma parse_tokens_attributes attrs : forall rest stream_end stk nm o,
  parse_tokens (attribute_tokens attrs ++ rest) stream_end
               (mkPState stk (Some (mkPendingTag nm o)))
  = parse_tokens rest stream_end
                 (mkPState stk (Some (mkPendingTag nm (assign_all attrs o)))).
Proof.
  induction attrs as [|[k v] attrs IH]; intros rest stream_end stk nm o;
    [reflexivity|].
  simpl. rewrite IH. now destruct (parse_tokens _ _ _).
Qed.

(** Last wins: after the assignments, a name other than [__proto__] maps to
    the value of its last occurrence. *)
Lemma assign_all_last_wins attrs : forall o k,
  k <> u "__proto__" ->
  own_get (assign_all attrs o) k
  = match last_value k attrs with
    | Some v => Some v
    | None => own_get o k
    end.
Proof.
  induction attrs as [|[k' v] attrs IH]; intros o k Hk; [reflexivity|].
  unfold assign_all in *. simpl. rewrite IH by assumption.
  destruct (last_value k attrs); [reflexivity|].
  destruct (str_eqb k' k) eqn:E.
  - apply str_eqb_eq in E; subst. now apply obj_set_get.
  - apply str_eqb_neq in E. apply obj_set_get_other. congruence.
Qed.

(** An attribute without [=] gets the empty string as its value. *)
Lemma step_valueless_attribute html st next :
  state st = inTag ->
  chunks.getAttributeName html (pos st) = Some next ->
  match4 next = None ->
  step html st
  = Continue (mkTState (pos st + chunk_length next) inTag (currentTag st))
             [TAttribute (match2 next) []].
Proof.
  intros Hs Ha Hm. unfold step. now rewrite Hs, Ha, Hm.
Qed.

(** A quoted value whose closing quote is missing runs to the end of the
    input, and the reader consumes the rest of the input. *)
Lemma readAttribute_unterminated s p q :
  charAt s p = [q] ->
  q = DQUOTE \/ q = SQUOTE ->
  index_in q (skipn (p + 1) s) = None ->
  readAttribute s p = Ok (mkAttrRead (List.length s - p) (skipn (p + 1) s)).
Proof.
  intros Hc Hq Hi. unfold readAttribute, indexOf. rewrite Hc. simpl hd.
  assert (QUOTES_has [q] = true) as ->.
  { unfold QUOTES_has. destruct Hq as [-> | ->]; reflexivity. }
  now rewrite Hi.
Qed.

(** C7 (attributes of an open event).  The claim: the attributes mapping
    holds every attribute of the tag, in source order.  The mapping is a
    plain object, and two kinds of attribute names escape it.  For
    [<a __proto__=x>] the tokenizer delivers the attribute [__proto__], but
    the assignment [attributes[name] = value] runs the inherited setter of
    [__proto__], which ignores a string: the open event carries an object
    without any own property.  For [<a b=1 2=x 1=y>] the three attributes
    are stored, but the names [2] and [1] are array indices: the object
    enumerates them first and in ascending order, not in source order. *)
Theorem attributes_object_drops_proto :
  tokenize (u "<a __proto__=x>")
  = ([TStart; TOpeningTag (u "a"); TAttribute (u "__proto__") (u "x");
      TOpeningTagEnd (u "a") (u ">"); TDone], Returned)
  /\ parse (u "<a __proto__=x>")
     = ([POpen (u "a") [] false; PClose (u "a") false], Returned)
  /\ parse (u "<a b=1 2=x 1=y>")
     = ([POpen (u "a") [(u "b", u "1"); (u "2", u "x"); (u "1", u "y")] false;
         PClose (u "a") false], Returned)
  /\ own_keys [(u "b", u "1"); (u "2", u "x"); (u "1", u "y")]
     = [u "1"; u "2"; u "b"].
Proof. repeat split; vm_compute; reflexivity. Qed.

(** C8 (case of tag names).  The opening-tag chunker captures the name as
    written; the lookup in the lowercase table compares code units, so it
    answers false for [P] and [DIV] where it answers true for [p] and
    [div]; and [<P><DIV>] yields open P, open DIV, close DIV, close P: no
    close of [P] before the open of [DIV], both closes come from the drain. *)
Theorem uppercase_tags_not_sibling_closed :
  chunks.getOpeningTag (u "<P><DIV>") 0 = Some (mkChunk (u "<P") (u "P") None)
  /\ isClosedBy (u "P") (u "DIV") = Ok false
  /\ isClosedBy (u "p") (u "div") = Ok true
  /\ parse (u "<P><DIV>")
     = ([POpen (u "P") [] false; POpen (u "DIV") [] false;
         PClose (u "DIV") false; PClose (u "P") false], Returned).
Proof. repeat split; vm_compute; reflexivity. Qed.

(** C9 (termination, linear bound, progress), as amended.  For every input:
    the loop of the tokenizer ends within [length html] iterations; it
    yields at most [2 * length html + 2] tokens and the parser at most
    [6 * length html + 6] events.  No iteration moves the cursor back.  The
    only iteration that leaves the cursor where it is, is the branch of
    [inTag] that abandons the tag: it yields nothing and switches to
    [inText], whose iterations all move the cursor; so two iterations in a
    row always consume at least one code unit, and the machine never
    cycles. *)
Theorem tokenizer_progress :
  forall html,
    (exists ys, loop (List.length html) html init = Some (ys, Returned))
    /\ List.length (fst (tokenize html)) <= 2 * List.length html + 2
    /\ List.length (fst (parse html)) <= 6 * List.length html + 6
    /\ (forall st st' ys,
          step html st = Continue st' ys -> pos st <= pos st')
    /\ (forall st st' ys,
          step html st = Continue st' ys -> pos st' = pos st ->
          state st = inTag /\ state st' = inText /\ ys = [])
    /\ (forall st st' st'' ys ys',
          step html st = Continue st' ys ->
          step html st' = Continue st'' ys' ->
          pos st < pos st'').
Proof.
  intros html.
  split; [|split; [|split; [|split; [|split]]]].
  - apply loop_terminates. rewrite potential_init. lia.
  - apply tokenize_length.
  - apply parse_length.
  - intros st st' ys H.
    destruct (step_cases _ _ _ _ H) as [(_ & _ & E & _) | (Hlt & _)]; lia.
  - intros st st' ys H Hsame.
    destruct (step_cases _ _ _ _ H) as [(E1 & E2 & _ & E3) | (Hlt & _)];
      [auto | lia].
  - intros st st' st'' ys ys' H1 H2.
    destruct (step_cases _ _ _ _ H1) as [(_ & E1 & E2 & _) | (Hlt & _)];
      destruct (step_cases _ _ _ _ H2) as [(E3 & _ & E4 & _) | (Hlt' & _)];
      try congruence; lia.
Qed.

Lemma tokenizer_progress_witness :
  (state (mkTState 2 inTag (u "a")) = inTag
   /\ state (mkTState 2 inText (u "a")) = inText
   /\ @nil Token = [])
  /\ pos (mkTState 2 inTag (u "a")) < pos (mkTState 3 inText (u "a")).
Proof.
  destruct (tokenizer_progress (u "<a!")) as (_ & _ & _ & _ & Hsame & Hpair).
  split.
  - apply (Hsame (mkTState 2 inTag (u "a")) (mkTState 2 inText (u "a")) []);
      reflexivity.
  - apply (Hpair (mkTState 2 inTag (u "a")) (mkTState 2 inText (u "a"))
                 (mkTState 3 inText (u "a")) [] [TText (u "!")]);
      reflexivity.
Defined.

(** C9 as stated fails: on [<a!] the second iteration of the loop is the
    abandon branch of [inTag]; it consumes nothing.  So it is not true that
    every iteration consumes at least one code unit. *)
Lemma abandon_iteration_consumes_nothing :
  step (u "<a!") init
  = Continue (mkTState 2 inTag (u "a")) [TOpeningTag (u "a")]
  /\ step (u "<a!") (mkTState 2 inTag (u "a"))
     = Continue (mkTState 2 inText (u "a")) []
  /\ ~ (forall html st st' ys,
          pos st < List.length html ->
          step html st = Continue st' ys ->
          pos st < pos st').
Proof.
  split; [reflexivity|]. split; [reflexivity|].
  intros H.
  specialize (H (u "<a!") (mkTState 2 inTag (u "a"))
                (mkTState 2 inText (u "a")) []).
  simpl in H. specialize (H ltac:(lia) eq_refl). lia.
Qed.

(** C10 (script mode and case).  An iteration ends in [inScript] only when
    it is the tag-end branch of [inTag] and the captured tag name is,
    code unit for code unit, the lowercase string [script].  For
    [<SCRIPT>x</SCRIPT>] the tokenizer is in [inText] after the tag end
    and tokenizes the body as ordinary HTML, and the element is closed by
    its own closing tag; for [<SCRIPT><b>x</script>] the inner tag is
    tokenized as a tag, the lowercase [</script>] closes nothing, and
    [SCRIPT] is closed by the drain only, where the lowercase opener makes
    the same body one raw text closed at [</script>]. *)
Theorem script_mode_only_for_lowercase_script :
  (forall html st st' ys,
     step html st = Continue st' ys ->
     state st' = inScript ->
     state st = inTag /\ currentTag st = u "script")
  /\ step (u "<SCRIPT>x</SCRIPT>") (mkTState 7 inTag (u "SCRIPT"))
     = Continue (mkTState 8 inText (u "SCRIPT"))
                [TOpeningTagEnd (u "SCRIPT") (u ">")]
  /\ tokenize (u "<SCRIPT>x</SCRIPT>")
     = ([TStart; TOpeningTag (u "SCRIPT"); TOpeningTagEnd (u "SCRIPT") (u ">");
         TText (u "x"); TClosingTag (u "SCRIPT"); TDone], Returned)
  /\ parse (u "<SCRIPT>x</SCRIPT>")
     = ([POpen (u "SCRIPT") [] false; PText (u "x");
         PClose (u "SCRIPT") false], Returned)
  /\ parse (u "<SCRIPT><b>x</script>")
     = ([POpen (u "SCRIPT") [] false; POpen (u "b") [] false; PText (u "x");
         PClose (u "b") false; PClose (u "SCRIPT") false], Returned)
  /\ parse (u "<script><b>x</script>")
     = ([POpen (u "script") [] false; PText (u "<b>x");
         PClose (u "script") false], Returned).
Proof.
  split; [|repeat split; vm_compute; reflexivity].
  intros html st st' ys H Hs.
  step_branches H; inversion H; subst; clear H; simpl in Hs;
    try discriminate.
  destruct (str_eqb (currentTag st) (u "script")) eqn:E; [|discriminate].
  apply str_eqb_eq in E. auto.
Qed.

Lemma script_mode_only_for_lowercase_script_witness :
  state (mkTState 7 inTag (u "script")) = inTag
  /\ currentTag (mkTState 7 inTag (u "script")) = u "script".
Proof.
  apply (proj1 script_mode_only_for_lowercase_script
           (u "<script>x") (mkTState 7 inTag (u "script"))
           (mkTState 8 inScript (u "script"))
           [TOpeningTagEnd (u "script") (u ">")]); reflexivity.
Defined.

(* ------------------------------------------------------------------ *)
(** ** Further properties of the code *)

(** *** The stack class *)

(** X1.  The stack is last-in-first-out: after [push(t)], [peek()] is [t],
    [peek(n+1)] is what [peek(n)] was, [pop()] gives [t] back and leaves the
    stack as it was, the size grew by one, and [drain] yields [t] first and
    then what it would have yielded before.  A [peek] at or beyond the size
    and a [pop] of the empty stack are [undefined]. *)
Theorem stack_is_lifo (T : Type) (s : Stack.items T) (t : T) :
  Stack.peek 0 (Stack.push t s) = Some t
  /\ (forall n, Stack.peek (S n) (Stack.push t s) = Stack.peek n s)
  /\ Stack.pop (Stack.push t s) = (Some t, s)
  /\ Stack.size (Stack.push t s) = S (Stack.size s)
  /\ Stack.drain (Stack.push t s) = t :: Stack.drain s
  /\ (forall n, Stack.size s <= n -> Stack.peek n s = None)
  /\ Stack.pop (Stack.empty T) = (None, Stack.empty T).
Proof.
  unfold Stack.peek, Stack.push, Stack.pop, Stack.size, Stack.drain,
    Stack.empty.
  repeat split.
  - rewrite length_app. simpl.
    destruct (Nat.ltb_spec 0 (List.length s + 1)); [|lia].
    rewrite nth_error_app2 by lia.
    replace (List.length s + 1 - 1 - 0 - List.length s) with 0 by lia.
    reflexivity.
  - intros n. rewrite length_app. simpl.
    destruct (Nat.ltb_spec (S n) (List.length s + 1));
      destruct (Nat.ltb_spec n (List.length s)); try lia; [|reflexivity].
    rewrite nth_error_app1 by lia. f_equal. lia.
  - rewrite map_app. simpl. now rewrite last_last, removelast_last.
  - rewrite length_app. simpl. lia.
  - now rewrite rev_app_distr.
  - intros n Hn. destruct (Nat.ltb_spec n (List.length s)); [lia|reflexivity].
Qed.

Lemma stack_is_lifo_witness :
  Stack.peek 2 (Stack.push 7 [5; 6]) = Stack.peek 1 [5; 6]
  /\ Stack.peek 2 [5; 6] = None.
Proof.
  destruct (stack_is_lifo nat [5; 6] 7) as (_ & Hpeek & _ & _ & _ & Hnone & _).
  split; [apply Hpeek | apply Hnone; simpl; lia].
Defined.

(** *** Substrings *)

Lemma skipn_app_exact (pre l : str) : skipn (List.length pre) (pre ++ l) = l.
Proof. induction pre; simpl; auto. Qed.

Lemma firstn_app_exact (v l : str) : firstn (List.length v) (v ++ l) = v.
Proof. induction v; simpl; [reflexivity | now f_equal]. Qed.

Lemma index_in_bound c l i : index_in c l = Some i -> i < List.length l.
Proof.
  revert i. induction l as [|x l IH]; intros i; simpl; [discriminate|].
  destruct (N.eqb x c); [intros H; inversion H; lia|].
  destruct (index_in c l) as [j|]; [|discriminate].
  intros H; inversion H; subst. specialize (IH j eq_refl). lia.
Qed.

Lemma index_in_app c v rest :
  index_in c v = None -> index_in c (v ++ c :: rest) = Some (List.length v).
Proof.
  induction v as [|x v IH]; simpl; [now rewrite N.eqb_refl|].
  destruct (N.eqb x c); [discriminate|].
  destruct (index_in c v); [discriminate|].
  intros _. now rewrite IH.
Qed.

Lemma starts_with_split pat : forall l,
  starts_with pat l = true -> exists rest, l = pat ++ rest.
Proof.
  induction pat as [|p pat IH]; intros l H; [now exists l|].
  destruct l as [|x l]; [discriminate|]. simpl in H.
  apply andb_true_iff in H as [H1 H2]. apply N.eqb_eq in H1. subst.
  destruct (IH l H2) as [rest ->]. now exists rest.
Qed.

(** What [before_first] finds is followed by the literal and has no
    earlier occurrence of it. *)
Lemma before_first_split pat : forall l body,
  before_first pat l = Some body ->
  (exists rest, l = body ++ pat ++ rest)
  /\ forall i, i < List.length body -> starts_with pat (skipn i l) = false.
Proof.
  induction l as [|x l IH]; intros body H; rewrite before_first_eq in H.
  - destruct (starts_with pat []) eqn:E; [|discriminate].
    inversion H; subst. split; [|simpl; intros; lia].
    destruct (starts_with_split _ _ E) as [rest Hr]. now exists rest.
  - destruct (starts_with pat (x :: l)) eqn:E.
    + inversion H; subst. split; [|simpl; intros; lia].
      destruct (starts_with_split _ _ E) as [rest Hr]. now exists rest.
    + destruct (before_first pat l) as [b|] eqn:Eb; [|discriminate].
      inversion H; subst. destruct (IH b eq_refl) as [[rest Hr] Hno].
      split; [exists rest; simpl; now rewrite Hr|].
      intros [|i] Hi; [exact E|]. simpl. apply Hno. simpl in Hi. lia.
Qed.

(** *** The attribute value reader *)

(** X2.  A quoted value is read back exactly: when the input has, at
    [pos], a quote, a text [v] without that quote, and the same quote
    again, [readAttribute] returns [v] and a length that covers [v] and
    both quotes. *)
Theorem readAttribute_quoted (pre v rest : str) (q : char) :
  q = DQUOTE \/ q = SQUOTE ->
  index_in q v = None ->
  readAttribute (pre ++ q :: v ++ q :: rest) (List.length pre)
  = Ok (mkAttrRead (List.length v + 2) v).
Proof.
  intros Hq Hv. unfold readAttribute, charAt, indexOf.
  rewrite skipn_app_exact. simpl firstn. simpl hd.
  assert (QUOTES_has [q] = true) as ->
    by (unfold QUOTES_has; destruct Hq as [-> | ->]; reflexivity).
  replace (skipn (List.length pre + 1) (pre ++ q :: v ++ q :: rest))
    with (v ++ q :: rest).
  2:{ replace (List.length pre + 1) with (List.length (pre ++ [q]))
        by (rewrite length_app; reflexivity).
      replace (pre ++ q :: v ++ q :: rest) with ((pre ++ [q]) ++ v ++ q :: rest)
        by (now rewrite <- app_assoc).
      now rewrite skipn_app_exact. }
  rewrite (index_in_app _ _ _ Hv). simpl option_map.
  apply f_equal. apply f_equal2; [lia|].
  unfold substring.
  assert (Hlen : List.length (pre ++ q :: v ++ q :: rest)
                 = List.length pre + 1 + List.length v + 1 + List.length rest).
  { rewrite length_app. simpl. rewrite length_app. simpl. lia. }
  rewrite Hlen.
  replace (Nat.min (Nat.min (List.length pre + 1) _) _)
    with (List.length (pre ++ [q])) by (rewrite length_app; simpl; lia).
  replace (Nat.max _ _ - List.length (pre ++ [q])) with (List.length v)
    by (rewrite length_app; simpl; lia).
  replace (pre ++ q :: v ++ q :: rest) with ((pre ++ [q]) ++ v ++ q :: rest)
    by (now rewrite <- app_assoc).
  rewrite skipn_app_exact. apply firstn_app_exact.
Qed.

Lemma readAttribute_quoted_witness :
  readAttribute (u "<br att='yes no'>") 8
  = Ok (mkAttrRead 8 (u "yes no")).
Proof.
  apply (readAttribute_quoted (u "<br att=") (u "yes no") (u ">") SQUOTE);
    [now right | reflexivity].
Defined.

Lemma readAttribute_in_input (s : str) (p : nat) :
  (p <= List.length s ->
   exists r, readAttribute s p = Ok r
             /\ p + read_length r <= List.length s
             /\ (QUOTES_has (charAt s p) = false ->
                 Forall (fun c => isSpace c = false /\ c <> GT) (read_value r)))
  /\ (List.length s < p -> readAttribute s p = TypeError).
Proof.
  unfold readAttribute. split.
  - intros Hp. destruct (QUOTES_has (charAt s p)) eqn:Eq.
    + unfold indexOf.
      destruct (index_in _ (skipn (p + 1) s)) as [i|] eqn:Ei; simpl.
      * eexists; split; [reflexivity|]. split; [|discriminate]. simpl.
        apply index_in_bound in Ei. rewrite length_skipn in Ei. lia.
      * eexists; split; [reflexivity|]. split; [|discriminate]. simpl. lia.
    + destruct (Nat.leb_spec p (List.length s)); [|lia].
      eexists; split; [reflexivity|]. simpl. split.
      * pose proof (takeWhile_dropWhile isSpace (skipn p s)) as H1.
        pose proof (takeWhile_length
                      (fun c => negb (N.eqb c GT || isSpace c))
                      (dropWhile isSpace (skipn p s))) as H2.
        pose proof (length_skipn p s) as H3.
        rewrite <- H1 in H3 at 1. rewrite length_app in *. lia.
      * intros _.
        induction (dropWhile isSpace (skipn p s)) as [|x l IH]; simpl;
          [constructor|].
        destruct (N.eqb x GT || isSpace x) eqn:E; simpl; [constructor|].
        apply orb_false_iff in E as [E1 E2]. constructor; [|exact IH].
        split; [exact E2|]. now apply N.eqb_neq.
  - intros Hp. unfold charAt. rewrite skipn_all2 by lia. simpl.
    destruct (Nat.leb_spec p (List.length s)); [lia|reflexivity].
Qed.

(** X3.  [readAttribute] stays inside the input: called at a position up to
    the end of the input it returns, and the length it reports does not
    reach beyond the end; an unquoted value holds no white space and no
    [>].  Called beyond the end it throws. *)
Theorem readAttribute_bounds (s : str) (p : nat) :
  (p <= List.length s ->
   exists r, readAttribute s p = Ok r
             /\ p + read_length r <= List.length s
             /\ (QUOTES_has (charAt s p) = false ->
                 Forall (fun c => isSpace c = false /\ c <> GT) (read_value r)))
  /\ (List.length s < p -> readAttribute s p = TypeError).
Proof. apply readAttribute_in_input. Qed.

Lemma readAttribute_bounds_witness :
  (exists r, readAttribute (u "a=xy z>") 2 = Ok r
             /\ 2 + read_length r <= 7
             /\ (QUOTES_has (charAt (u "a=xy z>") 2) = false ->
                 Forall (fun c => isSpace c = false /\ c <> GT) (read_value r)))
  /\ readAttribute (u "a=") 3 = TypeError.
Proof.
  split.
  - apply (proj1 (readAttribute_bounds (u "a=xy z>") 2)). simpl. lia.
  - apply (proj2 (readAttribute_bounds (u "a=") 3)). simpl. lia.
Defined.

(** *** The chunkers *)

Lemma chunk_at_bound s p c :
  chunk_at s p c -> 1 <= chunk_length c -> p + chunk_length c <= List.length s.
Proof.
  intros [rest H] Hc. unfold chunk_length in *.
  pose proof (length_skipn p s) as Hs. rewrite H, length_app in Hs. lia.
Qed.

Lemma getOpeningTag_at s p c : chunks.getOpeningTag s p = Some c -> chunk_at s p c.
Proof.
  unfold chunks.getOpeningTag, chunk_at.
  destruct (skipn p s) as [|x l]; [discriminate|].
  destruct (N.eqb x LT); [|discriminate].
  destruct (rx_qname isTagNameChar l) as [[nm rest]|] eqn:E; [|discriminate].
  intros H; inversion H; subst; simpl.
  apply rx_qname_split in E. subst. now exists rest.
Qed.

Lemma getText_at s p c : chunks.getText s p = Some c -> chunk_at s p c.
Proof.
  unfold chunks.getText, chunk_at.
  pose proof (takeWhile_dropWhile (fun c => negb (N.eqb c LT)) (skipn p s)) as Hl.
  destruct (takeWhile _ (skipn p s)) as [|x run]; [discriminate|].
  intros H; inversion H; subst; simpl match1. eauto.
Qed.

Lemma getClosingTag_at s p c : chunks.getClosingTag s p = Some c -> chunk_at s p c.
Proof.
  unfold chunks.getClosingTag, chunk_at.
  destruct (skipn p s) as [|x [|y l]]; try discriminate.
  destruct (N.eqb x LT && N.eqb y SLASH); [|discriminate].
  destruct (rx_qname isTagNameChar l) as [[nm [|e rest]]|] eqn:E;
    try discriminate.
  destruct (N.eqb e GT); [|discriminate].
  intros H; inversion H; subst; simpl.
  apply rx_qname_split in E. subst. exists rest.
  now rewrite <- app_assoc.
Qed.

Lemma getCommentOpen_at s p c : chunks.getCommentOpen s p = Some c -> chunk_at s p c.
Proof.
  unfold chunks.getCommentOpen, chunk_at.
  destruct (starts_with _ _) eqn:E; [|discriminate].
  intros H; inversion H; subst; simpl match1.
  now apply starts_with_split.
Qed.

Lemma getComment_at s p c : chunks.getComment s p = Some c -> chunk_at s p c.
Proof.
  unfold chunks.getComment, chunk_at.
  destruct (before_first _ _) as [body|] eqn:E; [|discriminate].
  intros H; inversion H; subst; simpl match1.
  destruct (before_first_split _ _ _ E) as [[rest Hr] _].
  exists rest. now rewrite Hr, app_assoc.
Qed.

Lemma getScript_at s p c : chunks.getScript s p = Some c -> chunk_at s p c.
Proof.
  unfold chunks.getScript, chunk_at.
  destruct (before_first _ _) as [body|] eqn:E; [|discriminate].
  intros H; inversion H; subst; simpl match1.
  destruct (before_first_split _ _ _ E) as [[rest Hr] _].
  exists rest. now rewrite Hr, app_assoc.
Qed.

Lemma getTagEnd_at s p c : chunks.getTagEnd s p = Some c -> chunk_at s p c.
Proof.
  unfold chunks.getTagEnd, chunk_at.
  pose proof (takeWhile_dropWhile isSpace (skipn p s)) as Hl.
  destruct (dropWhile isSpace (skipn p s)) as [|x rest]; [discriminate|].
  destruct (N.eqb x GT).
  - intros H; inversion H; subst; simpl match1. exists rest.
    now rewrite <- app_assoc.
  - destruct (N.eqb x SLASH); [|discriminate].
    destruct rest as [|d rest]; [discriminate|].
    destruct (N.eqb d GT); [|discriminate].
    intros H; inversion H; subst; simpl match1. exists rest.
    now rewrite <- app_assoc.
Qed.

Lemma getAttributeName_at s p c :
  chunks.getAttributeName s p = Some c -> chunk_at s p c.
Proof.
  unfold chunks.getAttributeName, chunk_at.
  pose proof (takeWhile_dropWhile isSpace (skipn p s)) as Hl.
  destruct (takeWhile isSpace (skipn p s)) as [|w ws] eqn:E1; [discriminate|].
  destruct (rx_qname _ _) as [[nm rest]|] eqn:E2; [|discriminate].
  apply rx_qname_split in E2. rewrite E2 in Hl. rewrite <- Hl.
  pose proof (takeWhile_dropWhile isSpace rest) as Hr.
  remember (takeWhile isSpace rest) as ws2 eqn:Ews2. clear Ews2.
  destruct (dropWhile isSpace rest) as [|x rest'] eqn:E3.
  - intros H; inversion H; subst c; cbn [match1]. exists rest.
    simpl. rewrite <- ?app_assoc. reflexivity.
  - pose proof (takeWhile_dropWhile isSpace rest') as Hr'.
    remember (takeWhile isSpace rest') as ws3 eqn:Ews3. clear Ews3.
    remember (dropWhile isSpace rest') as d3 eqn:Ed3. clear Ed3.
    destruct (N.eqb x EQUALS); intros H; inversion H; subst c; cbn [match1].
    + exists d3.
      rewrite <- Hr, <- Hr'. simpl. rewrite <- ?app_assoc. simpl.
      rewrite <- ?app_assoc. reflexivity.
    + exists rest. simpl. rewrite <- ?app_assoc. reflexivity.
Qed.

Lemma chunked_in_input (s : str) (p : nat) (c : Chunk) :
  chunked s p c ->
  chunk_at s p c
  /\ 1 <= chunk_length c
  /\ p + chunk_length c <= List.length s.
Proof.
  intros H.
  assert (Hat : chunk_at s p c /\ 1 <= chunk_length c).
  { destruct H as [H|[H|[H|[H|[H|[H|[H|H]]]]]]]; split;
      eauto using getOpeningTag_at, getText_at, getClosingTag_at,
        getCommentOpen_at, getComment_at, getScript_at, getTagEnd_at,
        getAttributeName_at with chunk.
    apply getOpeningTag_length in H. lia. }
  destruct Hat as [Hat Hlen]. repeat split; try assumption.
  now apply chunk_at_bound.
Qed.

(** X4.  Whatever a chunker returns lies in the input at the position it
    was asked for: [match[1]] is the part of the input that starts at
    [pos], it is not empty, and [pos + length] does not pass the end of the
    input. *)
Theorem chunkers_match_at_pos (s : str) (p : nat) (c : Chunk) :
  chunked s p c ->
  chunk_at s p c
  /\ 1 <= chunk_length c
  /\ p + chunk_length c <= List.length s.
Proof. apply chunked_in_input. Qed.

Lemma chunkers_match_at_pos_witness :
  chunk_at (u "a<b c=d>") 3 (mkChunk (u " c=") (u "c") (Some (u "=")))
  /\ 1 <= chunk_length (mkChunk (u " c=") (u "c") (Some (u "=")))
  /\ 3 + chunk_length (mkChunk (u " c=") (u "c") (Some (u "="))) <= 8.
Proof.
  apply (chunkers_match_at_pos (u "a<b c=d>") 3).
  unfold chunked. do 7 right. reflexivity.
Defined.

(** X5.  The comment and script chunkers stop at the FIRST terminator:
    the captured body is followed by the terminator in the input, and the
    terminator does not occur at any earlier position; when they fail, the
    terminator does not occur at all behind [pos]. *)
Theorem body_chunkers_stop_at_first (s : str) (p : nat) :
  (forall c, chunks.getComment s p = Some c ->
     match1 c = match2 c ++ u "-->"
     /\ forall i, i < List.length (match2 c) ->
          starts_with (u "-->") (skipn i (skipn p s)) = false)
  /\ (forall c, chunks.getScript s p = Some c ->
        match1 c = match2 c ++ u "</script>"
        /\ forall i, i < List.length (match2 c) ->
             starts_with (u "</script>") (skipn i (skipn p s)) = false)
  /\ (chunks.getComment s p = None ->
        forall i, starts_with (u "-->") (skipn i (skipn p s)) = false)
  /\ (chunks.getScript s p = None ->
        forall i, starts_with (u "</script>") (skipn i (skipn p s)) = false).
Proof.
  assert (Hnone : forall pat l, before_first pat l = None ->
                    forall i, starts_with pat (skipn i l) = false).
  { intros pat. induction l as [|x l IH]; intros H i;
      rewrite before_first_eq in H.
    - destruct (starts_with pat []) eqn:E; [discriminate|].
      now destruct i.
    - destruct (starts_with pat (x :: l)) eqn:E; [discriminate|].
      destruct (before_first pat l) eqn:Eb; [discriminate|].
      destruct i; [exact E | simpl; now apply IH]. }
  unfold chunks.getComment, chunks.getScript.
  split; [|split; [|split]].
  - intros c. destruct (before_first _ _) as [body|] eqn:E; [|discriminate].
    intros H; inversion H; subst; simpl.
    split; [reflexivity | exact (proj2 (before_first_split _ _ _ E))].
  - intros c. destruct (before_first _ _) as [body|] eqn:E; [|discriminate].
    intros H; inversion H; subst; simpl.
    split; [reflexivity | exact (proj2 (before_first_split _ _ _ E))].
  - destruct (before_first _ _) eqn:E; [discriminate|]. intros _. now apply Hnone.
  - destruct (before_first _ _) eqn:E; [discriminate|]. intros _. now apply Hnone.
Qed.

Lemma body_chunkers_stop_at_first_witness :
  match1 (mkChunk (u "x-->") (u "x") None) = u "x" ++ u "-->"
  /\ forall i, i < 1 ->
       starts_with (u "-->") (skipn i (skipn 4 (u "<!--x-->y-->"))) = false.
Proof.
  apply (proj1 (body_chunkers_stop_at_first (u "<!--x-->y-->") 4)
           (mkChunk (u "x-->") (u "x") None)).
  reflexivity.
Defined.

(** *** The cursor of the tokenizer *)

Ltac chunk_bounds :=
  repeat match goal with
  | E : chunks.getOpeningTag _ _ = Some _ |- _ =>
      apply (fun e => chunked_in_input _ _ _ (or_introl e)) in E
  | E : chunks.getText _ _ = Some _ |- _ =>
      apply (fun e => chunked_in_input _ _ _ (or_intror (or_introl e))) in E
  | E : chunks.getClosingTag _ _ = Some _ |- _ =>
      apply (fun e => chunked_in_input _ _ _
                        (or_intror (or_intror (or_introl e)))) in E
  | E : chunks.getCommentOpen _ _ = Some _ |- _ =>
      apply (fun e => chunked_in_input _ _ _
                        (or_intror (or_intror (or_intror (or_introl e))))) in E
  | E : chunks.getComment _ _ = Some _ |- _ =>
      apply (fun e => chunked_in_input _ _ _
                        (or_intror (or_intror (or_intror (or_intror
                          (or_introl e)))))) in E
  | E : chunks.getScript _ _ = Some _ |- _ =>
      apply (fun e => chunked_in_input _ _ _
                        (or_intror (or_intror (or_intror (or_intror
                          (or_intror (or_introl e))))))) in E
  | E : chunks.getTagEnd _ _ = Some _ |- _ =>
      apply (fun e => chunked_in_input _ _ _
                        (or_intror (or_intror (or_intror (or_intror
                          (or_intror (or_intror (or_introl e)))))))) in E
  | E : chunks.getAttributeName _ _ = Some _ |- _ =>
      apply (fun e => chunked_in_input _ _ _
                        (or_intror (or_intror (or_intror (or_intror
                          (or_intror (or_intror (or_intror e)))))))) in E
  end.

(** X6.  The cursor stays inside the input: an iteration that starts with
    the cursor before the end of the input leaves it at most at the end. *)
Theorem cursor_stays_in_input (html : str) (st st' : TState) (ys : list Token) :
  pos st < List.length html ->
  step html st = Continue st' ys ->
  pos st' <= List.length html.
Proof.
  intros Hp H.
  step_branches H; inversion H; subst; clear H; simpl; chunk_bounds;
    try lia.
  match goal with
  | E : chunk_at _ _ ?c /\ _ /\ ?p + chunk_length ?c <= _ |- _ =>
      destruct E as (_ & _ & Hb);
      destruct (proj1 (readAttribute_in_input html (p + chunk_length c)) Hb)
        as (r & Hr & Hlen & _)
  end.
  match goal with
  | E1 : readAttribute ?h ?q = Ok ?x, E2 : readAttribute ?h ?q = Ok ?y |- _ =>
      rewrite E1 in E2; inversion E2; subst
  end.
  lia.
Qed.

Lemma cursor_stays_in_input_witness :
  pos (mkTState 16 inTag (u "br")) <= 16.
Proof.
  apply (cursor_stays_in_input (u "<br att='yes, no") (mkTState 3 inTag (u "br"))
           (mkTState 16 inTag (u "br"))
           [TAttribute (u "att") (u "yes, no")]);
    [simpl; lia | reflexivity].
Defined.

(** *** The wrapper that merges text tokens *)

Lemma truthy_text_of ct : truthy ct = false -> text_of ct = [].
Proof. destruct ct as [[|x t]|]; simpl; congruence. Qed.

Lemma segments_coalesce l : forall ct,
  segments [] (coalesce ct l) = segments (text_of ct) l.
Proof.
  induction l as [|t r IH]; intros ct; [reflexivity|].
  destruct t; simpl;
    try (destruct (truthy ct) eqn:E; simpl;
         [now rewrite IH | rewrite IH, (truthy_text_of _ E); reflexivity]).
  rewrite IH. destruct ct; reflexivity.
Qed.

Lemma no_empty_text_coalesce l : forall ct,
  no_empty_text (coalesce ct l) = true.
Proof.
  induction l as [|t r IH]; intros ct; [reflexivity|].
  destruct t; simpl; try apply IH;
    destruct ct as [[|x c]|]; simpl; apply IH.
Qed.

(** X7.  The wrapper [tokenize] changes nothing but the grouping of text:
    every non-text token of [_tokenize] is yielded, in order, preceded by
    the same text (the concatenation of the text tokens since the previous
    non-text token), and it never yields an empty text token. *)
Theorem tokenize_keeps_tokens_and_text (html : str) :
  segments [] (fst (tokenize html)) = segments [] (fst (_tokenize html))
  /\ no_empty_text (fst (tokenize html)) = true.
Proof.
  split; [apply segments_coalesce | apply no_empty_text_coalesce].
Qed.

(** X8.  Merging is idempotent: the loop of the wrapper, run on its own
    output, yields that output again. *)
Theorem coalesce_idempotent (l : list Token) (ct : option str) :
  coalesce None (coalesce ct l) = coalesce ct l.
Proof.
  revert ct. induction l as [|t r IH]; intros ct; [reflexivity|].
  destruct t; simpl; try apply IH;
    destruct ct as [[|x c]|]; simpl; now rewrite IH.
Qed.

(** *** The shape of the token stream *)

Lemma step_yields_no_start_or_done html st :
  match step html st with
  | Continue _ ys | Break ys | Raise ys =>
      forallb (fun t => negb (is_start_or_done t)) ys = true
  end.
Proof.
  destruct (step html st) eqn:H; step_branches H; inversion H; subst;
    reflexivity.
Qed.

Lemma loop_yields_no_start_or_done html fuel : forall st r,
  loop fuel html st = Some r ->
  forallb (fun t => negb (is_start_or_done t)) (fst r) = true.
Proof.
  induction fuel as [|fuel IH]; intros st r H; simpl in H.
  - destruct (pos st <? List.length html); [discriminate|]. now inversion H.
  - destruct (pos st <? List.length html); [|now inversion H].
    pose proof (step_yields_no_start_or_done html st) as Hs.
    destruct (step html st) as [st' zs|zs|zs].
    + destruct (loop fuel html st') as [ws|] eqn:E; [|discriminate].
      inversion H; subst. simpl. rewrite forallb_app, Hs. simpl.
      now apply (IH st').
    + now inversion H.
    + now inversion H.
Qed.

Lemma coalesce_until_done ys : forall ct,
  forallb (fun t => negb (is_start_or_done t)) ys = true ->
  exists mid,
    coalesce ct (ys ++ [TDone]) = mid ++ [TDone]
    /\ forallb (fun t => negb (is_start_or_done t)) mid = true.
Proof.
  induction ys as [|t r IH]; intros ct H.
  - simpl. destruct (truthy ct).
    + now exists [TText (text_of ct)].
    + now exists [].
  - simpl in H. apply andb_true_iff in H as [H1 H2].
    destruct t; simpl; try discriminate; try (now apply IH);
      (destruct (truthy ct);
       [destruct (IH None H2) as (mid & Hmid & Hm)
       |destruct (IH ct H2) as (mid & Hmid & Hm)]);
      rewrite Hmid;
      match goal with
      | |- exists _, ?a :: ?b :: ?m ++ _ = _ /\ _ => exists (a :: b :: m)
      | |- exists _, ?a :: ?m ++ _ = _ /\ _ => exists (a :: m)
      end; (split; [reflexivity | simpl; assumption]).
Qed.

(** X9.  The token stream of [tokenize] starts with the start token and
    ends with the done token, and neither occurs in between. *)
Theorem tokenize_start_and_done (html : str) :
  exists mid,
    fst (tokenize html) = TStart :: mid ++ [TDone]
    /\ forallb (fun t => negb (is_start_or_done t)) mid = true.
Proof.
  unfold tokenize, _tokenize, _tokenize_fuel.
  destruct (loop_terminates html (List.length html) init) as [ys Hy];
    [rewrite potential_init; lia|].
  rewrite Hy. simpl.
  apply loop_yields_no_start_or_done in Hy. simpl in Hy.
  destruct (coalesce_until_done ys None Hy) as (mid & -> & Hm).
  now exists mid.
Qed.

(** *** Tags in the token stream *)

Lemma tags_framed_app ys : forall cur prev zs,
  tags_framed cur prev (ys ++ zs)
  = tags_framed cur prev ys
    && tags_framed (last_opening cur ys) (after prev ys) zs.
Proof.
  induction ys as [|y ys IH]; intros cur prev zs; simpl; [reflexivity|].
  rewrite IH. unfold after, last_opening. simpl. now rewrite andb_assoc.
Qed.

Lemma tags_framed_weaken l cur prev :
  tags_framed cur false l = true -> tags_framed cur prev l = true.
Proof.
  destruct l as [|t r]; intros H; simpl in *; [reflexivity|].
  apply andb_true_iff in H as [H1 H2]. rewrite H2.
  destruct t; simpl in *; try reflexivity; discriminate.
Qed.

Lemma step_framed html st st' ys cur prev :
  step html st = Continue st' ys ->
  (state st = inTag -> prev = true /\ cur = Some (currentTag st)) ->
  tags_framed cur prev ys = true
  /\ (state st' = inTag ->
      after prev ys = true /\ last_opening cur ys = Some (currentTag st')).
Proof.
  intros H Hp.
  step_branches H; inversion H; subst; clear H;
    try (destruct (Hp eq_refl) as [-> ->]); simpl; rewrite ?str_eqb_refl;
    (split; [reflexivity|]); try discriminate; try (intros _; now split).
  destruct (str_eqb (currentTag st) (u "script")); discriminate.
Qed.

Lemma step_break_framed html st ys cur prev :
  step html st = Break ys -> tags_framed cur prev ys = true.
Proof.
  intros H. step_branches H; inversion H; subst; reflexivity.
Qed.

Lemma loop_framed html fuel : forall st r cur prev,
  loop fuel html st = Some r ->
  (state st = inTag -> prev = true /\ cur = Some (currentTag st)) ->
  tags_framed cur prev (fst r) = true.
Proof.
  induction fuel as [|fuel IH]; intros st r cur prev H Hp; simpl in H.
  - destruct (pos st <? List.length html); [discriminate|]. now inversion H.
  - destruct (pos st <? List.length html); [|now inversion H].
    destruct (step html st) as [st' zs|zs|zs] eqn:Hs.
    + destruct (loop fuel html st') as [ws|] eqn:E; [|discriminate].
      inversion H; subst. simpl.
      destruct (step_framed _ _ _ _ _ _ Hs Hp) as [H1 H2].
      rewrite tags_framed_app, H1. simpl. eapply IH; eauto.
    + inversion H; subst. eapply step_break_framed; eauto.
    + now apply step_never_raises in Hs.
Qed.

Lemma _tokenize_framed html :
  tags_framed None false (fst (_tokenize html)) = true.
Proof.
  unfold _tokenize, _tokenize_fuel.
  destruct (loop (List.length html) html init) as [[ys c]|] eqn:E;
    [|reflexivity].
  assert (H : tags_framed None false ys = true).
  { apply (loop_framed _ _ _ _ None false E). discriminate. }
  destruct c; simpl; rewrite ?tags_framed_app, ?H; reflexivity.
Qed.

Lemma coalesce_framed l : forall ct cur prev,
  tags_framed cur prev l = true ->
  (prev = true -> truthy ct = false) ->
  tags_framed cur prev (coalesce ct l) = true.
Proof.
  induction l as [|t r IH]; intros ct cur prev H Hp; [reflexivity|].
  simpl in H. apply andb_true_iff in H as [H1 H2].
  destruct t; simpl in *;
    try (destruct (truthy ct) eqn:Ect; simpl;
         [apply IH; [assumption | reflexivity]
         |apply IH; [assumption | now intros _]]).
  - (* attribute *)
    subst prev. rewrite (Hp eq_refl). simpl.
    apply IH; [assumption | now intros _; apply Hp].
  - (* opening tag end *)
    apply andb_true_iff in H1 as [Hprev Hcur]. subst prev.
    rewrite (Hp eq_refl). simpl. rewrite Hcur. simpl.
    apply IH; [assumption | discriminate].
  - (* text *)
    apply tags_framed_weaken. apply IH; [assumption | discriminate].
Qed.

Lemma tokenize_framed (html : str) :
  tags_framed None false (fst (tokenize html)) = true.
Proof.
  apply coalesce_framed; [apply _tokenize_framed | discriminate].
Qed.

(** X10.  Tags are framed in the token stream of [tokenize]: an attribute
    token and an opening-tag-end token always come right after an
    opening-tag token or an attribute token, and an opening-tag-end token
    carries the name of the last opening-tag token before it. *)
Theorem tokenize_frames_tags (html : str) :
  tags_framed None false (fst (tokenize html)) = true.
Proof. apply tokenize_framed. Qed.

(** *** Texts and comments through the parser *)

Lemma content_of_closes (l : list PendingTag) :
  content_of_events (map close_of l) = [].
Proof. induction l; simpl; auto. Qed.

Lemma handle_content st tkn st' ys :
  handle st tkn = Next st' ys ->
  (forall nm tok, tkn = TOpeningTagEnd nm tok -> pendingTag st <> None) ->
  content_of_events ys = content_of_tokens [tkn]
  /\ (pendingTag st <> None -> pendingTag st' <> None)
  /\ (forall nm, tkn = TOpeningTag nm -> pendingTag st' <> None).
Proof.
  destruct st as [stk pend]. unfold handle; simpl.
  destruct tkn as [|nm|nm v|nm tok|txt|txt|nm|]; intros H Hend;
    try (inversion H; subst; simpl; repeat split; auto; discriminate).
  - destruct pend; inversion H; subst; simpl; repeat split; auto; discriminate.
  - destruct pend as [pending|]; [|now destruct (Hend nm tok eq_refl)].
    destruct (Stack.peek 0 stk) as [m|].
    + destruct (isClosedBy (name m) (name pending)) as [b|]; [|discriminate].
      destruct b; destruct (str_eqb tok (u "/>") || isSelfClosing nm);
        inversion H; subst; simpl; repeat split; auto; discriminate.
    + destruct (str_eqb tok (u "/>") || isSelfClosing nm);
        inversion H; subst; simpl; repeat split; auto; discriminate.
  - destruct (Stack.peek 0 stk) as [cur|];
      [|inversion H; subst; simpl; repeat split; auto; discriminate].
    destruct (str_eqb (name cur) nm);
      [inversion H; subst; simpl; repeat split; auto; discriminate|].
    destruct (Stack.peek 1 stk) as [par|];
      [|inversion H; subst; simpl; repeat split; auto; discriminate].
    destruct (str_eqb (name par) nm && isClosedByParent (name cur));
      inversion H; subst; simpl; repeat split; auto; discriminate.
Qed.

Lemma parse_tokens_content tkns : forall cur prev stream_end st evs,
  tags_framed cur prev tkns = true ->
  (cur <> None -> pendingTag st <> None) ->
  parse_tokens tkns stream_end st = (evs, Returned) ->
  content_of_events evs = content_of_tokens tkns.
Proof.
  induction tkns as [|tkn rest IH]; intros cur prev stream_end st evs Hf Hc H;
    simpl in H.
  - destruct stream_end; [|discriminate]. inversion H; subst.
    apply content_of_closes.
  - destruct (handle st tkn) as [st' ys|ys] eqn:Hh; [|discriminate].
    destruct (parse_tokens rest stream_end st') as [evs' c] eqn:Hr.
    simpl in H. inversion H; subst. clear H.
    simpl in Hf. apply andb_true_iff in Hf as [Hf1 Hf2].
    destruct (handle_content _ _ _ _ Hh) as (Hys & Hkeep & Hnew).
    { intros nm tok ->. apply andb_true_iff in Hf1 as [_ Hcur].
      apply Hc. destruct cur; [discriminate|discriminate]. }
    unfold content_of_events. rewrite flat_map_app.
    fold (content_of_events ys). fold (content_of_events evs').
    rewrite Hys.
    replace (content_of_tokens (tkn :: rest))
      with (content_of_tokens [tkn] ++ content_of_tokens rest)
      by (unfold content_of_tokens; simpl; now rewrite app_nil_r).
    f_equal. eapply IH; [exact Hf2 | | exact Hr].
    destruct tkn; try (intros Hn; apply Hkeep, Hc, Hn).
    intros _. now apply (Hnew name0).
Qed.

(** X11.  The parser passes text and comments through: when [parse]
    returns, its text and comment events are exactly the text and comment
    tokens of [tokenize], with the same content and in the same order (the
    branch that turns a bare opening-tag-end token into a text event is
    never taken). *)
Theorem parse_passes_text_and_comments (html : str) :
  snd (parse html) = Returned ->
  content_of_events (fst (parse html)) = content_of_tokens (fst (tokenize html)).
Proof.
  intros H. unfold parse in *.
  apply (parse_tokens_content (fst (tokenize html)) None false
           (snd (tokenize html)) (mkPState (Stack.empty PendingTag) None)).
  - apply tokenize_framed.
  - intros Hn. now elim Hn.
  - rewrite <- H. now destruct (parse_tokens _ _ _).
Qed.

Lemma parse_passes_text_and_comments_witness :
  content_of_events (fst (parse (u "a<b>c</x>d<!--e-->")))
  = content_of_tokens (fst (tokenize (u "a<b>c</x>d<!--e-->"))).
Proof.
  apply (parse_passes_text_and_comments (u "a<b>c</x>d<!--e-->")).
  reflexivity.
Defined.

(** *** Self-closing events *)

Lemma self_closing_paired_app ys : forall p evs,
  self_closing_paired p ys = true ->
  self_closing_paired p (ys ++ evs) = self_closing_paired None evs.
Proof.
  induction ys as [|e ys IH]; intros p evs H.
  - destruct p; [discriminate | reflexivity].
  - simpl in *. destruct p as [n|].
    + destruct e as [| | |m [|]]; try discriminate.
      apply andb_true_iff in H as [H1 H2]. rewrite H1. simpl. now apply IH.
    + destruct e as [n a [|]| | |m [|]]; try discriminate; now apply IH.
Qed.

Lemma handle_self_closing_paired st tkn st' ys :
  handle st tkn = Next st' ys -> self_closing_paired None ys = true.
Proof.
  destruct st as [stk pend]. unfold handle; simpl.
  destruct tkn as [|nm|nm v|nm tok|txt|txt|nm|];
    try (intros H; inversion H; subst; reflexivity).
  - destruct pend; intros H; inversion H; subst; reflexivity.
  - destruct pend as [pending|]; [|intros H; inversion H; subst; reflexivity].
    destruct (Stack.peek 0 stk) as [m|].
    + destruct (isClosedBy (name m) (name pending)) as [b|]; [|discriminate].
      destruct b; destruct (str_eqb tok (u "/>") || isSelfClosing nm);
        intros H; inversion H; subst; simpl; rewrite ?str_eqb_refl;
        reflexivity.
    + destruct (str_eqb tok (u "/>") || isSelfClosing nm);
        intros H; inversion H; subst; simpl; rewrite ?str_eqb_refl;
        reflexivity.
  - destruct (Stack.peek 0 stk) as [cur|];
      [|intros H; inversion H; subst; reflexivity].
    destruct (str_eqb (name cur) nm);
      [intros H; inversion H; subst; reflexivity|].
    destruct (Stack.peek 1 stk) as [par|];
      [|intros H; inversion H; subst; reflexivity].
    destruct (str_eqb (name par) nm && isClosedByParent (name cur));
      intros H; inversion H; subst; reflexivity.
Qed.

Lemma closes_self_closing_paired (l : list PendingTag) :
  self_closing_paired None (map close_of l) = true.
Proof. induction l; simpl; auto. Qed.

Lemma parse_tokens_self_closing_paired tkns : forall stream_end st,
  self_closing_paired None (fst (parse_tokens tkns stream_end st)) = true.
Proof.
  induction tkns as [|tkn rest IH]; intros stream_end st; simpl.
  - destruct stream_end; simpl; [apply closes_self_closing_paired|reflexivity].
  - destruct (handle st tkn) as [st' ys|ys] eqn:Hh; simpl.
    + rewrite self_closing_paired_app; [apply IH|].
      eapply handle_self_closing_paired; eauto.
    + now rewrite (handle_throws_nothing _ _ _ Hh).
Qed.

(** X12.  For every input, also when [parse] throws: every open event with
    [selfClosing] true is followed at once by the close event of the same
    name with [selfClosing] true, and no other close event has
    [selfClosing] true. *)
Theorem parse_pairs_self_closing (html : str) :
  self_closing_paired None (fst (parse html)) = true.
Proof. apply parse_tokens_self_closing_paired. Qed.

(** *** Whole inputs *)

Lemma _tokenize_of_loop html k ys :
  loop k html init = Some (ys, Returned) ->
  k <= List.length html ->
  _tokenize html = (TStart :: ys ++ [TDone], Returned).
Proof.
  intros H Hk. unfold _tokenize, _tokenize_fuel.
  now rewrite (loop_fuel_mono _ _ _ _ _ H Hk).
Qed.

Lemma takeWhile_all p l : forallb p l = true -> takeWhile p l = l.
Proof.
  induction l as [|x l IH]; simpl; [reflexivity|].
  intros H. apply andb_true_iff in H as [H1 H2]. now rewrite H1, IH.
Qed.

(** X13.  Text without [<] passes through unchanged: for a non-empty input
    that holds no [<], the tokenizer yields start, one text token with the
    whole input, done; and the parser yields one text event with the whole
    input. *)
Theorem parse_plain_text (html : str) :
  html <> [] ->
  forallb (fun c => negb (N.eqb c LT)) html = true ->
  tokenize html = ([TStart; TText html; TDone], Returned)
  /\ parse html = ([PText html], Returned).
Proof.
  intros Hne Hall.
  assert (Hs : step html init
               = Continue (mkTState (List.length html) inText []) [TText html]).
  { unfold step, chunks.getText, init. cbn [state pos currentTag skipn].
    rewrite (takeWhile_all (fun c : char => negb (N.eqb c LT)) html Hall).
    destruct html as [|c l]; [contradiction|].
    simpl in Hall. apply andb_true_iff in Hall as [Hc _].
    apply negb_true_iff in Hc.
    unfold charAt. cbn [skipn firstn str_eqb]. rewrite Hc. reflexivity. }
  assert (Hl : loop 1 html init = Some ([TText html], Returned)).
  { simpl. destruct html as [|c l]; [contradiction|]. simpl length.
    simpl Nat.ltb. cbv iota. rewrite Hs.
    cbn [pos]. rewrite Nat.ltb_irrefl. reflexivity. }
  assert (Ht : tokenize html = ([TStart; TText html; TDone], Returned)).
  { unfold tokenize. rewrite (_tokenize_of_loop _ _ _ Hl).
    - simpl. destruct html; [contradiction | reflexivity].
    - destruct html; [contradiction | simpl; lia]. }
  split; [exact Ht|]. unfold parse. rewrite Ht. reflexivity.
Qed.

Lemma parse_plain_text_witness :
  tokenize (u "a > b") = ([TStart; TText (u "a > b"); TDone], Returned)
  /\ parse (u "a > b") = ([PText (u "a > b")], Returned).
Proof.
  apply (parse_plain_text (u "a > b")); [discriminate | reflexivity].
Defined.

Lemma loop_continue html fuel st st' ys :
  pos st < List.length html ->
  step html st = Continue st' ys ->
  loop (S fuel) html st
  = option_map (fun r => (ys ++ fst r, snd r)) (loop fuel html st').
Proof.
  intros Hp Hs. simpl.
  destruct (Nat.ltb_spec (pos st) (List.length html)); [|lia].
  now rewrite Hs.
Qed.

Lemma loop_break html fuel st ys :
  pos st < List.length html ->
  step html st = Break ys ->
  loop (S fuel) html st = Some (ys, Returned).
Proof.
  intros Hp Hs. simpl.
  destruct (Nat.ltb_spec (pos st) (List.length html)); [|lia].
  now rewrite Hs.
Qed.

(** Unfolds one iteration of the loop with the result [Hs] of its step. *)
Ltac loop_next Hs Hlen :=
  match type of Hs with
  | step ?h ?st = Continue ?st' ?ys =>
      rewrite (loop_continue h _ st st' ys)
        by (first [exact Hs | rewrite Hlen; simpl; lia])
  | step ?h ?st = Break ?ys =>
      rewrite (loop_break h _ st ys)
        by (first [exact Hs | rewrite Hlen; simpl; lia])
  end.

Lemma before_first_at_end pat body :
  (forall i, i < List.length body ->
     starts_with pat (skipn i (body ++ pat)) = false) ->
  before_first pat (body ++ pat) = Some body.
Proof.
  intros H. rewrite <- (app_nil_r pat) at 2.
  apply before_first_found. now rewrite app_nil_r.
Qed.

(** X14.  A comment is passed on with its body unchanged.  For the input
    made of [<!--], a body in which [-->] does not occur, and [-->], the
    parser yields one comment event with that body.  Without the closing
    [-->] a non-empty body that holds no [-->] is still yielded as one
    comment event; and the bare opener [<!--] at the end of the input
    yields no event at all. *)
Theorem parse_comment (body : str) :
  ((forall i, i < List.length body ->
      starts_with (u "-->") (skipn i (body ++ u "-->")) = false) ->
   parse (u "<!--" ++ body ++ u "-->") = ([PComment body], Returned))
  /\ (body <> [] ->
      (forall i, starts_with (u "-->") (skipn i body) = false) ->
      parse (u "<!--" ++ body) = ([PComment body], Returned))
  /\ parse (u "<!--") = ([], Returned).
Proof.
  split; [|split; [|reflexivity]].
  - intros Hfirst. set (html := u "<!--" ++ body ++ u "-->").
    assert (Hlen : List.length html = 4 + (List.length body + 3))
      by (unfold html; rewrite !length_app; reflexivity).
    assert (Hs1 : step html init = Continue (mkTState 4 inComment []) [])
      by (vm_compute; reflexivity).
    assert (Hs2 : step html (mkTState 4 inComment [])
                  = Continue (mkTState (4 + (List.length body + 3)) inText [])
                             [TComment body]).
    { unfold step, chunks.getComment. cbn [state pos currentTag].
      change (skipn 4 html) with (body ++ u "-->").
      rewrite (before_first_at_end _ _ Hfirst).
      unfold chunk_length. cbn [match1 match2]. rewrite length_app.
      reflexivity. }
    assert (Hl : loop 2 html init = Some ([TComment body], Returned)).
    { loop_next Hs1 Hlen.
      loop_next Hs2 Hlen.
      rewrite loop_at_end by (rewrite Hlen; simpl; lia). reflexivity. }
    unfold parse, tokenize.
    rewrite (_tokenize_of_loop _ _ _ Hl) by lia. reflexivity.
  - intros Hne Hnone. set (html := u "<!--" ++ body).
    assert (Hlen : List.length html = 4 + List.length body)
      by (unfold html; rewrite !length_app; reflexivity).
    assert (Hb : 1 <= List.length body)
      by (destruct body; [contradiction | simpl; lia]).
    assert (Hs1 : step html init = Continue (mkTState 4 inComment []) [])
      by (vm_compute; reflexivity).
    assert (Hs2 : step html (mkTState 4 inComment []) = Break [TComment body]).
    { unfold step, chunks.getComment. cbn [state pos currentTag].
      change (skipn 4 html) with body.
      now rewrite (before_first_none _ _ Hnone). }
    assert (Hl : loop 2 html init = Some ([TComment body], Returned)).
    { loop_next Hs1 Hlen.
      loop_next Hs2 Hlen. reflexivity. }
    unfold parse, tokenize.
    rewrite (_tokenize_of_loop _ _ _ Hl) by lia. reflexivity.
Qed.

Lemma parse_comment_witness :
  parse (u "<!--" ++ u "a->b" ++ u "-->") = ([PComment (u "a->b")], Returned)
  /\ parse (u "<!--" ++ u "x-- >") = ([PComment (u "x-- >")], Returned).
Proof.
  split.
  - apply (proj1 (parse_comment (u "a->b"))).
    intros i Hi. do 4 (destruct i; [reflexivity|]). simpl in Hi. lia.
  - apply (proj1 (proj2 (parse_comment (u "x-- >")))); [discriminate|].
    intros i. do 6 (destruct i; [reflexivity|]). reflexivity.
Defined.

(** X15.  The body of a script element is passed on as raw text.  For the
    input made of [<script>], a body in which [</script>] does not occur,
    and [</script>], the parser yields open script, one text event with
    the body (no text event when the body is empty), close script.  When
    the closing [</script>] is missing and the body is not empty, the body
    is yielded as one text event and the element is closed by the drain. *)
Theorem parse_script (body : str) :
  ((forall i, i < List.length body ->
      starts_with (u "</script>") (skipn i (body ++ u "</script>")) = false) ->
   parse (u "<script>" ++ body ++ u "</script>")
   = (POpen (u "script") [] false
      :: match body with [] => [] | _ :: _ => [PText body] end
      ++ [PClose (u "script") false], Returned))
  /\ (body <> [] ->
      (forall i, starts_with (u "</script>") (skipn i body) = false) ->
      parse (u "<script>" ++ body)
      = ([POpen (u "script") [] false; PText body;
          PClose (u "script") false], Returned)).
Proof.
  split.
  - intros Hfirst. set (html := u "<script>" ++ body ++ u "</script>").
    assert (Hlen : List.length html = 8 + (List.length body + 9))
      by (unfold html; rewrite !length_app; reflexivity).
    assert (Hs1 : step html init
                  = Continue (mkTState 7 inTag (u "script"))
                             [TOpeningTag (u "script")])
      by (vm_compute; reflexivity).
    assert (Hs2 : step html (mkTState 7 inTag (u "script"))
                  = Continue (mkTState 8 inScript (u "script"))
                             [TOpeningTagEnd (u "script") (u ">")])
      by (vm_compute; reflexivity).
    assert (Hs3 : step html (mkTState 8 inScript (u "script"))
                  = Continue (mkTState (8 + (List.length body + 9)) inText
                                       (u "script"))
                             [TText body; TClosingTag (u "script")]).
    { unfold step, chunks.getScript. cbn [state pos currentTag].
      change (skipn 8 html) with (body ++ u "</script>").
      rewrite (before_first_at_end _ _ Hfirst).
      unfold chunk_length. cbn [match1 match2]. rewrite length_app.
      reflexivity. }
    assert (Hl : loop 3 html init
                 = Some ([TOpeningTag (u "script");
                          TOpeningTagEnd (u "script") (u ">");
                          TText body; TClosingTag (u "script")], Returned)).
    { loop_next Hs1 Hlen.
      loop_next Hs2 Hlen.
      loop_next Hs3 Hlen.
      rewrite loop_at_end by (rewrite Hlen; simpl; lia). reflexivity. }
    unfold parse, tokenize.
    rewrite (_tokenize_of_loop _ _ _ Hl) by lia.
    destruct body; reflexivity.
  - intros Hne Hnone. set (html := u "<script>" ++ body).
    assert (Hlen : List.length html = 8 + List.length body)
      by (unfold html; rewrite !length_app; reflexivity).
    assert (Hb : 1 <= List.length body)
      by (destruct body; [contradiction | simpl; lia]).
    assert (Hs1 : step html init
                  = Continue (mkTState 7 inTag (u "script"))
                             [TOpeningTag (u "script")])
      by (vm_compute; reflexivity).
    assert (Hs2 : step html (mkTState 7 inTag (u "script"))
                  = Continue (mkTState 8 inScript (u "script"))
                             [TOpeningTagEnd (u "script") (u ">")])
      by (vm_compute; reflexivity).
    assert (Hs3 : step html (mkTState 8 inScript (u "script"))
                  = Break [TText body]).
    { unfold step, chunks.getScript. cbn [state pos currentTag].
      change (skipn 8 html) with body.
      now rewrite (before_first_none _ _ Hnone). }
    assert (Hl : loop 3 html init
                 = Some ([TOpeningTag (u "script");
                          TOpeningTagEnd (u "script") (u ">");
                          TText body], Returned)).
    { loop_next Hs1 Hlen.
      loop_next Hs2 Hlen.
      loop_next Hs3 Hlen. reflexivity. }
    unfold parse, tokenize.
    rewrite (_tokenize_of_loop _ _ _ Hl) by lia.
    destruct body; [contradiction | reflexivity].
Qed.

Lemma parse_script_witness :
  parse (u "<script>" ++ u "i<n" ++ u "</script>")
  = ([POpen (u "script") [] false; PText (u "i<n");
      PClose (u "script") false], Returned)
  /\ parse (u "<script>" ++ u "x<")
     = ([POpen (u "script") [] false; PText (u "x<");
         PClose (u "script") false], Returned).
Proof.
  split.
  - apply (proj1 (parse_script (u "i<n"))).
    intros i Hi. do 3 (destruct i; [reflexivity|]). simpl in Hi. lia.
  - apply (proj2 (parse_script (u "x<"))); [discriminate|].
    intros i. do 3 (destruct i; [reflexivity|]). reflexivity.
Defined.

(** *** The sibling table *)



(** *** The parser as a whole *)

(** X17.  [parse] returns normally on every input in which no opening tag
    is named like a property of [Object.prototype]. *)
Theorem parse_returns_on_safe_names (html : str) :
  (forall nm, In (TOpeningTag nm) (fst (tokenize html)) -> safe_name nm) ->
  snd (parse html) = Returned.
Proof. apply parse_returns. Qed.

Lemma parse_returns_on_safe_names_witness :
  snd (parse (u "<ul><li>a<li>b</ul>")) = Returned.
Proof.
  apply (parse_returns_on_safe_names (u "<ul><li>a<li>b</ul>")).
  intros nm Hin. vm_compute in Hin.
  repeat (destruct Hin as [Hin|Hin];
          [try discriminate; inversion Hin; reflexivity|]).
  contradiction.
Defined.

(** X18.  Whenever [parse] returns, its events are well nested: every
    close event with [selfClosing] false closes the innermost element that
    is open, every self-closing open event is followed at once by its
    close event, and at the end (after the drain) no element is left
    open. *)
Theorem parse_returned_events_well_nested (html : str) (evs : list ParseToken) :
  parse html = (evs, Returned) -> well_nested evs = true.
Proof. apply parse_returned_well_nested. Qed.

Lemma parse_returned_events_well_nested_witness :
  well_nested [POpen (u "p") [] false; PText (u "a"); PClose (u "p") false;
               POpen (u "hr") [] true; PClose (u "hr") true] = true.
Proof.
  apply (parse_returned_events_well_nested (u "<p>a<hr>")).
  vm_compute. reflexivity.
Defined.

(** *** Attributes *)

Lemma assign_all_proto attrs : forall o,
  own_get (assign_all attrs o) (u "__proto__") = own_get o (u "__proto__").
Proof.
  induction attrs as [|[k v] attrs IH]; intros o; [reflexivity|].
  unfold assign_all in *. simpl. rewrite IH. unfold obj_set.
  destruct (str_eqb k (u "__proto__")) eqn:E; [reflexivity|].
  apply str_eqb_neq in E. apply own_get_own_put_other. congruence.
Qed.

(** X19.  The attributes of a tag: after the opening-tag token and the
    attribute tokens of a tag, the pending tag holds an object in which
    every name other than [__proto__] maps to the value of its last
    occurrence among the attributes (and to nothing when it does not
    occur), and which never owns a property [__proto__]. *)
Theorem tag_attributes_last_wins (attrs : list (str * str)) :
  (forall rest stream_end st nm,
     parse_tokens (TOpeningTag nm :: attribute_tokens attrs ++ rest)
                  stream_end st
     = parse_tokens rest stream_end
         (mkPState (stack st)
                   (Some (mkPendingTag nm (assign_all attrs [])))))
  /\ (forall k, k <> u "__proto__" ->
        own_get (assign_all attrs []) k = last_value k attrs)
  /\ own_get (assign_all attrs []) (u "__proto__") = None.
Proof.
  split; [|split].
  - intros rest stream_end st nm. cbn [parse_tokens handle].
    rewrite parse_tokens_attributes. now destruct (parse_tokens _ _ _).
  - intros k Hk. rewrite (assign_all_last_wins attrs [] k Hk).
    now destruct (last_value k attrs).
  - apply assign_all_proto.
Qed.

Lemma tag_attributes_last_wins_witness :
  own_get (assign_all [(u "id", u "a"); (u "class", u "c"); (u "id", u "b")] [])
          (u "id")
  = last_value (u "id") [(u "id", u "a"); (u "class", u "c"); (u "id", u "b")].
Proof.
  apply (proj1 (proj2 (tag_attributes_last_wins
           [(u "id", u "a"); (u "class", u "c"); (u "id", u "b")]))).
  discriminate.
Defined.

Lemma str_eqb_sym a b : str_eqb a b = str_eqb b a.
Proof.
  revert b. induction a as [|x a IH]; intros [|y b]; simpl; auto.
  now rewrite N.eqb_sym, IH.
Qed.

Lemma keys_own_put o k v : map fst (own_put o k v) = add_key (map fst o) k.
Proof.
  unfold add_key, str_mem. induction o as [|[k' v'] o IH]; simpl; [reflexivity|].
  rewrite (str_eqb_sym k k').
  destruct (str_eqb k' k); simpl; [reflexivity|].
  rewrite IH. destruct (existsb (str_eqb k) (map fst o)); reflexivity.
Qed.

Lemma own_keys_ordinary o :
  Forall (fun kv => array_index (fst kv) = None) o -> own_keys o = map fst o.
Proof.
  intros H. unfold own_keys.
  assert (Hi : index_keys o = []).
  { induction H as [|[k v] o Hk Ho IH]; simpl in *; [reflexivity|].
    now rewrite Hk. }
  assert (Hs : string_keys o = map fst o).
  { induction H as [|[k v] o Hk Ho IH]; simpl in *; [reflexivity|].
    rewrite Hk. f_equal. apply IH.
    rewrite Hk in Hi. exact Hi. }
  now rewrite Hi, Hs.
Qed.

Lemma put_keeps_ordinary o k v :
  array_index k = None ->
  Forall (fun kv => array_index (fst kv) = None) o ->
  Forall (fun kv => array_index (fst kv) = None) (own_put o k v).
Proof.
  intros Hk. induction 1 as [|[k' v'] o Hk' Ho IH]; simpl.
  - constructor; [assumption | constructor].
  - destruct (str_eqb k' k); constructor; assumption.
Qed.

Lemma assign_all_keys attrs : forall o,
  Forall (fun kv => ordinary_name (fst kv)) attrs ->
  Forall (fun kv => array_index (fst kv) = None) o ->
  Forall (fun kv => array_index (fst kv) = None) (assign_all attrs o)
  /\ map fst (assign_all attrs o) = fold_left add_key (map fst attrs) (map fst o).
Proof.
  induction attrs as [|[k v] attrs IH]; intros o Ha Ho; [now split|].
  inversion Ha as [|? ? [Hk Hp] Ha']; subst. simpl in Hk, Hp.
  unfold assign_all in *. simpl. unfold obj_set at 2 4.
  apply str_eqb_neq in Hp. rewrite Hp.
  destruct (IH (own_put o k v) Ha' (put_keeps_ordinary _ _ _ Hk Ho)) as [H1 H2].
  split; [exact H1|]. now rewrite H2, keys_own_put.
Qed.

(** X20.  The attributes of an open event are enumerated in source order:
    when no attribute name of a tag is an array index or [__proto__], the
    keys of its attributes object are the attribute names in the order of
    their first occurrence. *)
Theorem attribute_keys_in_source_order (attrs : list (str * str)) :
  Forall (fun kv => ordinary_name (fst kv)) attrs ->
  own_keys (assign_all attrs []) = first_occurrences attrs.
Proof.
  intros H. destruct (assign_all_keys attrs [] H (Forall_nil _)) as [H1 H2].
  rewrite (own_keys_ordinary _ H1). exact H2.
Qed.

Lemma attribute_keys_in_source_order_witness :
  own_keys (assign_all [(u "id", u "a"); (u "class", u "c"); (u "id", u "b")] [])
  = first_occurrences [(u "id", u "a"); (u "class", u "c"); (u "id", u "b")].
Proof.
  apply (attribute_keys_in_source_order
           [(u "id", u "a"); (u "class", u "c"); (u "id", u "b")]).
  repeat constructor; discriminate.
Defined.

(** *** The fields of the tokens *)

Lemma forallb_takeWhile (p q : char -> bool) l :
  (forall c, p c = true -> q c = true) -> forallb q (takeWhile p l) = true.
Proof.
  intros Hpq. induction l as [|x l IH]; simpl; [reflexivity|].
  destruct (p x) eqn:E; simpl; [|reflexivity]. now rewrite (Hpq x E), IH.
Qed.

Lemma rx_qname_name_ok X l nm rest :
  rx_qname X l = Some (nm, rest) -> name_ok X nm = true.
Proof.
  unfold rx_qname, name_ok.
  assert (HX : forall l', forallb (fun c => X c || N.eqb c COLON)
                                  (takeWhile X l') = true).
  { intros l'. apply forallb_takeWhile. intros c ->. reflexivity. }
  pose proof (HX l) as H1.
  destruct (takeWhile X l) as [|a r1] eqn:E1; [discriminate|].
  destruct (dropWhile X l) as [|c rest0].
  - intros H; injection H as <- <-. now rewrite H1.
  - destruct (N.eqb c COLON) eqn:Ec.
    + pose proof (HX rest0) as H2.
      destruct (takeWhile X rest0) as [|b r2] eqn:E3;
        intros H; injection H as <- <-; [now rewrite H1|].
      simpl. simpl in H1. apply andb_true_iff in H1 as [Ha Hr1].
      rewrite Ha. simpl. rewrite forallb_app, Hr1. simpl.
      rewrite Ec, orb_true_r. simpl. simpl in H2. exact H2.
    + intros H; injection H as <- <-. now rewrite H1.
Qed.

Lemma step_tokens_ok html st :
  (state st = inTag -> name_ok isTagNameChar (currentTag st) = true) ->
  match step html st with
  | Continue st' ys =>
      forallb token_ok ys = true
      /\ (state st' = inTag -> name_ok isTagNameChar (currentTag st') = true)
  | Break ys | Raise ys => forallb token_ok ys = true
  end.
Proof.
  intros Hp.
  assert (Hopen : forall c, chunks.getOpeningTag html (pos st) = Some c ->
                    name_ok isTagNameChar (match2 c) = true).
  { unfold chunks.getOpeningTag. intros c.
    destruct (skipn (pos st) html) as [|x l]; [discriminate|].
    destruct (N.eqb x LT); [|discriminate].
    destruct (rx_qname isTagNameChar l) as [[nm rest]|] eqn:E; [|discriminate].
    intros H; inversion H; subst. simpl. eapply rx_qname_name_ok; eauto. }
  assert (Hclose : forall c, chunks.getClosingTag html (pos st) = Some c ->
                     name_ok isTagNameChar (match2 c) = true).
  { unfold chunks.getClosingTag. intros c.
    destruct (skipn (pos st) html) as [|x [|y l]]; try discriminate.
    destruct (N.eqb x LT && N.eqb y SLASH); [|discriminate].
    destruct (rx_qname isTagNameChar l) as [[nm [|e rest]]|] eqn:E;
      try discriminate.
    destruct (N.eqb e GT); [|discriminate].
    intros H; inversion H; subst. simpl. eapply rx_qname_name_ok; eauto. }
  assert (Hattr : forall c, chunks.getAttributeName html (pos st) = Some c ->
                    name_ok isAttrNameChar (match2 c) = true).
  { unfold chunks.getAttributeName. intros c.
    destruct (takeWhile isSpace (skipn (pos st) html)) as [|w ws];
      [discriminate|].
    destruct (rx_qname _ _) as [[nm rest]|] eqn:E; [|discriminate].
    apply rx_qname_name_ok in E.
    destruct (dropWhile isSpace rest) as [|x rest'].
    - intros H; inversion H; subst. exact E.
    - destruct (N.eqb x EQUALS); intros H; inversion H; subst; exact E. }
  assert (Hend : forall c, chunks.getTagEnd html (pos st) = Some c ->
                   str_eqb (match2 c) (u ">") || str_eqb (match2 c) (u "/>")
                   = true).
  { unfold chunks.getTagEnd. intros c.
    destruct (dropWhile isSpace (skipn (pos st) html)) as [|x rest];
      [discriminate|].
    destruct (N.eqb x GT) eqn:Ex.
    - intros H; inversion H; subst. simpl. apply N.eqb_eq in Ex. now subst.
    - destruct (N.eqb x SLASH) eqn:Es; [|discriminate].
      destruct rest as [|d rest]; [discriminate|].
      destruct (N.eqb d GT) eqn:Ed; [|discriminate].
      intros H; inversion H; subst. simpl.
      apply N.eqb_eq in Es, Ed. now subst. }
  destruct (step html st) eqn:H; step_branches H; inversion H; subst; clear H;
    cbn [forallb token_ok state currentTag andb];
    rewrite ?andb_true_r;
    try (split; [|try discriminate]); auto;
    try (intros _; now apply Hopen);
    try (rewrite (Hp eq_refl)); try (erewrite Hend by eauto); auto;
    try (intros _; now apply Hp).
Qed.

Lemma loop_tokens_ok html fuel : forall st r,
  (state st = inTag -> name_ok isTagNameChar (currentTag st) = true) ->
  loop fuel html st = Some r ->
  forallb token_ok (fst r) = true.
Proof.
  induction fuel as [|fuel IH]; intros st r Hp H; simpl in H.
  - destruct (pos st <? List.length html); [discriminate|]. now inversion H.
  - destruct (pos st <? List.length html); [|now inversion H].
    pose proof (step_tokens_ok html st Hp) as Hs.
    destruct (step html st) as [st' zs|zs|zs].
    + destruct (loop fuel html st') as [ws|] eqn:E; [|discriminate].
      inversion H; subst. simpl. destruct Hs as [Hz Hp'].
      rewrite forallb_app, Hz. simpl. now apply (IH st').
    + now inversion H.
    + now inversion H.
Qed.

Lemma coalesce_tokens_ok l : forall ct,
  forallb token_ok l = true -> forallb token_ok (coalesce ct l) = true.
Proof.
  induction l as [|t r IH]; intros ct H; [reflexivity|].
  simpl in H. apply andb_true_iff in H as [H1 H2].
  destruct t; simpl in *; try (now apply IH);
    destruct (truthy ct); simpl; rewrite ?H1; simpl; now apply IH.
Qed.

(** X21.  The fields of the tokens of [tokenize] are well formed, for every
    input: the name of an opening-tag, closing-tag and opening-tag-end
    token is not empty and holds only letters, digits, hyphens and colons;
    the name of an attribute token is not empty and holds only these and
    underscores; and the [token] of an opening-tag-end token is [>] or
    [/>]. *)
Theorem tokenize_tokens_well_formed (html : str) :
  forallb token_ok (fst (tokenize html)) = true.
Proof.
  unfold tokenize. cbn [fst]. apply coalesce_tokens_ok.
  unfold _tokenize, _tokenize_fuel.
  destruct (loop (List.length html) html init) as [[ys c]|] eqn:E;
    [|reflexivity].
  apply loop_tokens_ok in E; [|discriminate]. simpl in E.
  destruct c; simpl; rewrite ?forallb_app, ?E; reflexivity.
Qed.
